(** * The distribution core of rush: [mainserver/core.py]

    A shallow embedding of [CoreServer]: the connection registry, the frame
    reassembly done by [requests_handler], the classification of completed
    frames done by [response], the tear-down done by [disconn_handler] and
    the least-loaded dispatch done by [send_update].

    The Python object is a record of dictionaries that every method mutates;
    here it is a record threaded through a state-and-exception monad.  When a
    method raises, the mutations made before the raise stay, as they do in
    Python. *)

From Stdlib Require Import ZArith List Lia.
From Stdlib Require Import Strings.Byte Strings.Ascii Strings.String.
From stdpp Require Import base option list gmap strings.

Open Scope Z_scope.

(** ** Values *)

(** A [socket] object, compared by identity. *)
Abbreviation conn := nat (only parsing).

(** A [Handler] object, compared by identity: its address in [heap]. *)
Abbreviation hid := nat (only parsing).

Abbreviation bytes := (list byte) (only parsing).

(** [len(b)] as a Python integer. *)
Definition len (b : bytes) : Z := Z.of_nat (length b).

(** [b[i]], the integer value of one byte. *)
Definition byte_val (b : byte) : Z := Z.of_N (Byte.to_N b).

(** [int.from_bytes(b, 'little')]. *)
Fixpoint int_from_bytes_little (b : bytes) : Z :=
  match b with
  | [] => 0
  | x :: r => byte_val x + 256 * int_from_bytes_little r
  end.

Definition RESPONSE : Z := 0.
Definition HEARTBEAT : Z := 1.

(** The magic bytes of the handshake, as the module docstring gives them:
    [b'\x69\x04\x02\x00']. *)
Definition INITIAL_BYTES_SEQUENCE : bytes := [x69; x04; x02; x00].

(** Python exceptions that the modelled code can raise.  [CallbackError]
    stands for whatever the response callback raises. *)
Inductive exn :=
| TypeError
| KeyError
| IndexError
| ValueError
| OSError
| CallbackError.

Inductive res (A : Type) :=
| Ok (a : A)
| Raise (e : exn).
Arguments Ok {A} a.
Arguments Raise {A} e.

(** What a call of the response callback does. *)
Inductive outcome := Returns | Raises.

(** What [HandlerInitializer.next_step] returns: a [bool] while the handshake
    goes on ([True]) or has failed ([False]), and the filter once it is
    finished. *)
Inductive step_result (F : Type) :=
| RBool (b : bool)
| RFilter (f : F).
Arguments RBool {F} b.
Arguments RFilter {F} f.

(** ** Collaborators

    [mainserver.entities] and the owning system are not part of the core.
    What the core needs of them is gathered in one interface.  The
    collaborators are taken to return: [next_step], the filter and the
    callback do not write to the dictionaries of the core, and what the
    callback does shows only in whether it raises.  [print] is left out. *)
Class Externals := {
  (** [Filter]: a key of [virtual_groups], and a predicate on requests *)
  Filter : Type;
  Filter_eq_dec :: EqDecision Filter;
  Request : Type;
  (** [virtual_group_filter(request)] *)
  filter_call : Filter -> Request -> bool;
  (** [HandlerInitializer(conn)] and its [next_step(core, body)];
      [Filter(response)] is applied to the result already *)
  HandlerInitializer : Type;
  new_initializer : conn -> HandlerInitializer;
  next_step : HandlerInitializer -> bytes ->
              HandlerInitializer * step_result Filter;
  (** [self.callback(handler_entity, body)]: whether it raises *)
  callback : hid -> bytes -> outcome;
  (** [dumps(request).encode()], when [dumps] returns *)
  dumps_encode : Request -> bytes;
  (** whether [dumps(request)] returns: it raises [TypeError] on a request
      that JSON cannot hold *)
  serialisable : Request -> bool;
  (** [self.receive_block_size] *)
  receive_block_size : Z
}.

(** Calls that leave the core, in the order they are made. *)
Inductive effect :=
| ESend (h : hid) (data : bytes)          (* handler.send(data) *)
| ECallback (h : hid) (body : bytes)      (* self.callback(handler, body) *)
| ENextStep (c : conn) (body : bytes)     (* initializer.next_step(self, body) *)
| EClose (c : conn).                      (* conn.close() *)

(** A cell of [self.requests]:
    [[msg_len_received, left_to_receive, received]]. *)
Record cell := Cell {
  msg_len_received : bool;
  left_to_receive : Z;
  received : bytes
}.

Section Core.
Context {E : Externals}.

(** Modelled from the spec: the [Handler] entity of [mainserver.entities],
    which is not among the sources.  It holds the connection, the current
    load (unset, Python's [None], until the first heartbeat) and the assigned
    filter (unset until the handshake completes); [set_load] and [set_filter]
    overwrite the field, [send] writes to the connection. *)
Record Handler := MkHandler {
  h_conn : conn;
  h_load : option Z;
  h_filter : option Filter
}.

Definition set_load (v : Z) (h : Handler) : Handler :=
  MkHandler (h_conn h) (Some v) (h_filter h).

Definition set_filter (f : Filter) (h : Handler) : Handler :=
  MkHandler (h_conn h) (h_load h) (Some f).

(** ** The server object and its world

    [requests], [responses], [waiting_for_init], [handlers] and
    [virtual_groups] are the dictionaries of [CoreServer.__init__].
    [virtual_groups] keeps insertion order, which is the order [send_update]
    iterates in.  [Handler] objects are shared between [handlers] and
    [virtual_groups], so both hold addresses into [heap].  [rx] is what each
    socket has readable, [closed] the sockets that were closed, [trace] the
    calls made to collaborators. *)
Record CoreServer := MkCore {
  requests : gmap conn cell;
  responses : gmap conn (list bytes);
  waiting_for_init : gmap conn HandlerInitializer;
  handlers : gmap conn hid;
  virtual_groups : list (Filter * list hid);
  heap : list Handler;
  rx : gmap conn bytes;
  closed : gset conn;
  trace : list effect
}.

Definition init_core : CoreServer :=
  MkCore ∅ ∅ ∅ ∅ [] [] ∅ ∅ [].

Definition with_requests (r : gmap conn cell) (s : CoreServer) :=
  MkCore r (responses s) (waiting_for_init s) (handlers s)
         (virtual_groups s) (heap s) (rx s) (closed s) (trace s).
Definition with_responses (r : gmap conn (list bytes)) (s : CoreServer) :=
  MkCore (requests s) r (waiting_for_init s) (handlers s)
         (virtual_groups s) (heap s) (rx s) (closed s) (trace s).
Definition with_waiting (w : gmap conn HandlerInitializer) (s : CoreServer) :=
  MkCore (requests s) (responses s) w (handlers s)
         (virtual_groups s) (heap s) (rx s) (closed s) (trace s).
Definition with_handlers (h : gmap conn hid) (s : CoreServer) :=
  MkCore (requests s) (responses s) (waiting_for_init s) h
         (virtual_groups s) (heap s) (rx s) (closed s) (trace s).
Definition with_groups (g : list (Filter * list hid)) (s : CoreServer) :=
  MkCore (requests s) (responses s) (waiting_for_init s) (handlers s)
         g (heap s) (rx s) (closed s) (trace s).
Definition with_heap (h : list Handler) (s : CoreServer) :=
  MkCore (requests s) (responses s) (waiting_for_init s) (handlers s)
         (virtual_groups s) h (rx s) (closed s) (trace s).
Definition with_rx (r : gmap conn bytes) (s : CoreServer) :=
  MkCore (requests s) (responses s) (waiting_for_init s) (handlers s)
         (virtual_groups s) (heap s) r (closed s) (trace s).
Definition with_closed (c : gset conn) (s : CoreServer) :=
  MkCore (requests s) (responses s) (waiting_for_init s) (handlers s)
         (virtual_groups s) (heap s) (rx s) c (trace s).
Definition with_trace (t : list effect) (s : CoreServer) :=
  MkCore (requests s) (responses s) (waiting_for_init s) (handlers s)
         (virtual_groups s) (heap s) (rx s) (closed s) t.

(** ** A monad for methods: state, and exceptions that keep the state *)
Definition M (A : Type) : Type := CoreServer -> res A * CoreServer.

Definition ret {A} (a : A) : M A := fun s => (Ok a, s).
Definition raise {A} (e : exn) : M A := fun s => (Raise e, s).
Definition bind {A B} (m : M A) (k : A -> M B) : M B :=
  fun s => match m s with
           | (Ok a, s') => k a s'
           | (Raise e, s') => (Raise e, s')
           end.
Definition gets {A} (f : CoreServer -> A) : M A := fun s => (Ok (f s), s).
Definition modify (f : CoreServer -> CoreServer) : M unit :=
  fun s => (Ok tt, f s).

Notation "x <- m ;; k" := (bind m (fun x => k))
  (at level 100, m at next level, right associativity).
Notation "m ;;; k" := (bind m (fun _ => k))
  (at level 100, right associativity).

Definition emit (e : effect) : M unit :=
  modify (fun s => with_trace (trace s ++ [e]) s).

(** ** Sockets *)

(** [conn.recv(n)]: at most [n] of the readable bytes, which leave the
    socket.  A negative [n] is a [ValueError], a closed socket an
    [OSError]. *)
Definition conn_recv (c : conn) (n : Z) : M bytes :=
  fun s =>
    if decide (c ∈ closed s) then (Raise OSError, s)
    else if n <? 0 then (Raise ValueError, s)
    else
      let buf := default [] (rx s !! c) in
      (Ok (take (Z.to_nat n) buf),
       with_rx (<[c := drop (Z.to_nat n) buf]> (rx s)) s).

(** [conn.close()] *)
Definition conn_close (c : conn) : M unit :=
  emit (EClose c) ;;;
  modify (fun s => with_closed ({[c]} ∪ closed s) s).

(** Bytes reaching the socket of [c] from the network. *)
Definition arrive (c : conn) (data : bytes) : M unit :=
  modify (fun s => with_rx (<[c := default [] (rx s !! c) ++ data]> (rx s)) s).

(** ** Handler objects *)

(** [Handler(conn, None)]: a new object. *)
Definition new_handler (c : conn) : M hid :=
  fun s => (Ok (length (heap s)),
            with_heap (heap s ++ [MkHandler c None None]) s).

Definition update_handler (h : hid) (f : Handler -> Handler) : M unit :=
  modify (fun s => with_heap (alter f h (heap s)) s).

(** [_handler.load], for the handler object at address [h] of a heap. *)
Definition load_in (hp : list Handler) (h : hid) : option Z :=
  match hp !! h with
  | Some o => h_load o
  | None => None
  end.

Definition load_of (s : CoreServer) (h : hid) : option Z :=
  load_in (heap s) h.

(** [_handler.filter] *)
Definition filter_in (hp : list Handler) (h : hid) : option (option Filter) :=
  h_filter <$> hp !! h.

(** [handler.send(data)], of the absent [Handler] class: recorded as a
    call and taken to return.  What the socket does with the write is
    outside the core; the properties that say a dispatch returns are stated
    for handlers whose connection is open. *)
Definition handler_send (h : hid) (data : bytes) : M unit :=
  emit (ESend h data).

(** [conn.getpeername()]: a closed socket has no peer. *)
Definition conn_getpeername (c : conn) : M unit :=
  fun s => if decide (c ∈ closed s) then (Raise OSError, s) else (Ok tt, s).

(** ** [conn_handler] *)
Definition conn_handler (c : conn) : M unit :=
  conn_getpeername c ;;;
  handler_entity <- new_handler c ;;
  modify (fun s => with_handlers (<[c := handler_entity]> (handlers s)) s) ;;;
  modify (fun s => with_waiting
                     (<[c := new_initializer c]> (waiting_for_init s)) s).

(** ** [disconn_handler]

    [if conn in d: d.pop(conn)] is [delete]; the last [pop] has no guard. *)
Definition disconn_handler (c : conn) : M unit :=
  modify (fun s => with_waiting (delete c (waiting_for_init s)) s) ;;;
  modify (fun s => with_requests (delete c (requests s)) s) ;;;
  modify (fun s => with_responses (delete c (responses s)) s) ;;;
  conn_close c ;;;
  hs <- gets handlers ;;
  match hs !! c with
  | None => raise KeyError
  | Some _ => modify (fun s => with_handlers (delete c (handlers s)) s)
  end.

(** ** [response] *)

(** [self.virtual_groups[filter_] = [h]] for a new key, [.append(h)] for a
    known one. *)
Fixpoint group_add (f : Filter) (h : hid) (g : list (Filter * list hid))
  : list (Filter * list hid) :=
  match g with
  | [] => [(f, [h])]
  | (f', hs) :: g' =>
      if decide (f' = f) then (f', hs ++ [h]) :: g'
      else (f', hs) :: group_add f h g'
  end.

Definition response (c : conn) (response_body : bytes) : M unit :=
  hs <- gets handlers ;;
  match hs !! c with
  | None => raise KeyError
  | Some handler_entity =>
      w <- gets waiting_for_init ;;
      match w !! c with
      | Some initializer =>
          emit (ENextStep c response_body) ;;;
          let '(initializer', r) := next_step initializer response_body in
          modify (fun s => with_waiting
                             (<[c := initializer']> (waiting_for_init s)) s) ;;;
          match r with
          | RFilter filter_ =>
              modify (fun s => with_waiting
                                 (delete c (waiting_for_init s)) s) ;;;
              modify (fun s => with_groups
                                 (group_add filter_ handler_entity
                                            (virtual_groups s)) s) ;;;
              update_handler handler_entity (set_filter filter_)
          | RBool true => ret tt
          | RBool false => conn_close c
          end
      | None =>
          match response_body with
          | [] => raise IndexError
          | tag :: rest =>
              if byte_val tag =? HEARTBEAT then
                match rest with
                | [] => raise IndexError
                | load :: _ =>
                    update_handler handler_entity (set_load (byte_val load))
                end
              else
                emit (ECallback handler_entity rest) ;;;
                match callback handler_entity rest with
                | Returns => ret tt
                | Raises => raise CallbackError
                end
          end
      end
  end.

(** ** [requests_handler] *)
Definition set_request (c : conn) (x : cell) : M unit :=
  modify (fun s => with_requests (<[c := x]> (requests s)) s).

Definition pop_request (c : conn) : M unit :=
  rs <- gets requests ;;
  match rs !! c with
  | None => raise KeyError
  | Some _ => modify (fun s => with_requests (delete c (requests s)) s)
  end.

Definition requests_handler (c : conn) : M unit :=
  rs <- gets requests ;;
  match rs !! c with
  | None =>
      future_msg_len <- conn_recv c 4 ;;
      if len future_msg_len =? 4 then
        set_request c (Cell true (int_from_bytes_little future_msg_len) [])
      else
        set_request c (Cell false (4 - len future_msg_len) future_msg_len)
  | Some request_cell =>
      let left := left_to_receive request_cell in
      if negb (msg_len_received request_cell) then
        received_now <- conn_recv c left ;;
        if left - len received_now <=? 0 then
          (* int.from_bytes(request_cell[2], 'little') + received:
             an int plus a bytes object *)
          raise TypeError
        else
          set_request c (Cell (msg_len_received request_cell)
                              (left - len received_now)
                              (received request_cell ++ received_now))
      else
        request <- conn_recv c (if left <=? receive_block_size
                                then left else receive_block_size) ;;
        let body := received request_cell ++ request in
        let left' := left - len request in
        set_request c (Cell (msg_len_received request_cell) left' body) ;;;
        if left' <=? 0 then
          response c body ;;;
          pop_request c
        else ret tt
  end.

(** ** [send_update] *)

(** [a < b] on two loads; [None] orders with nothing. *)
Definition load_lt (a b : option Z) : res bool :=
  match a, b with
  | Some x, Some y => Ok (x <? y)
  | _, _ => Raise TypeError
  end.

(** The loop of [min(handlers, key=lambda _handler: _handler.load)] once the
    first item is taken: a later item replaces the current one when its key
    is strictly smaller. *)
Fixpoint min_loop (hp : list Handler) (best : hid) (hs : list hid) : res hid :=
  match hs with
  | [] => Ok best
  | h :: hs' =>
      match load_lt (load_in hp h) (load_in hp best) with
      | Raise e => Raise e
      | Ok true => min_loop hp h hs'
      | Ok false => min_loop hp best hs'
      end
  end.

(** [min] of an empty sequence is a [ValueError]. *)
Definition min_by_load (hp : list Handler) (hs : list hid) : res hid :=
  match hs with
  | [] => Raise ValueError
  | h :: hs' => min_loop hp h hs'
  end.

(** [dumps(request).encode()] *)
Definition dumps (request : Request) : M bytes :=
  if serialisable request then ret (dumps_encode request)
  else raise TypeError.

Fixpoint send_update_loop (items : list (Filter * list hid))
                          (request : Request) : M unit :=
  match items with
  | [] => ret tt
  | (virtual_group_filter, hs) :: items' =>
      (if filter_call virtual_group_filter request then
         handler <- (fun s => (min_by_load (heap s) hs, s)) ;;
         data <- dumps request ;;
         handler_send handler data
       else ret tt) ;;;
      send_update_loop items' request
  end.

Definition send_update (request : Request) : M unit :=
  items <- gets virtual_groups ;;
  send_update_loop items request.

(** ** Events *)
Inductive event :=
| Connect (c : conn)
| Arrive (c : conn) (data : bytes)
| Receive (c : conn)
| Disconnect (c : conn)
| SendUpdate (request : Request).

Definition handle (ev : event) : M unit :=
  match ev with
  | Connect c => conn_handler c
  | Arrive c data => arrive c data
  | Receive c => requests_handler c
  | Disconnect c => disconn_handler c
  | SendUpdate request => send_update request
  end.

(** The state an event leaves, whether its handler returned or raised. *)
Definition step (s : CoreServer) (ev : event) : CoreServer :=
  snd (handle ev s).

(** The states of a running server: those that some sequence of events
    leads to from the state [__init__] builds. *)
Inductive reachable : CoreServer -> Prop :=
| reach_init : reachable init_core
| reach_step s ev : reachable s -> reachable (step s ev).

(** Bytes reach the socket in chunks, and each chunk is followed by one
    RECEIVE event.  The first handler that raises ends the run. *)
Fixpoint deliver (c : conn) (chunks : list bytes) : M unit :=
  match chunks with
  | [] => ret tt
  | chunk :: chunks' =>
      arrive c chunk ;;;
      requests_handler c ;;;
      deliver c chunks'
  end.

(** [h] is a handler of [hs] whose load is set and is at most the load of
    every handler of [hs]. *)
Definition least_loaded (s : CoreServer) (hs : list hid) (h : hid) : Prop :=
  h ∈ hs ∧
  ∃ v, load_of s h = Some v ∧
       ∀ h', h' ∈ hs -> ∃ v', load_of s h' = Some v' ∧ v <= v'.

(** The socket of the handler [h] has not been closed. *)
Definition connection_open (s : CoreServer) (h : hid) : Prop :=
  ∀ o, heap s !! h = Some o -> h_conn o ∉ closed s.

(** [h] is a member of the virtual group of [f]. *)
Definition in_group (g : list (Filter * list hid)) (f : Filter) (h : hid)
  : Prop :=
  ∃ hs, (f, hs) ∈ g ∧ h ∈ hs.

(** [h] was admitted with filter [f]: [set_filter] gave it [f]. *)
Definition admitted (hp : list Handler) (h : hid) (f : Filter) : Prop :=
  filter_in hp h = Some (Some f).

(** ** The registry

    The part of the state that admission and dispatch depend on: the
    handshake sessions, the handlers by connection, the virtual groups and
    the handler objects. *)
Definition registry (s : CoreServer) :=
  (waiting_for_init s, handlers s, virtual_groups s, heap s).

(** What the registry keeps true between events. *)
Record registry_ok (w : gmap conn HandlerInitializer) (hm : gmap conn hid)
                   (g : list (Filter * list hid)) (hp : list Handler)
  : Prop := {
  (** a group is not empty, and its members carry its filter *)
  ok_groups : ∀ f hs, (f, hs) ∈ g -> hs ≠ [] ∧ ∀ h, h ∈ hs -> admitted hp h f;
  (** a handler that carries a filter is in the group of that filter *)
  ok_admitted : ∀ h f, admitted hp h f -> in_group g f h;
  (** a connection in handshake has a handler without filter *)
  ok_waiting : ∀ c i h, w !! c = Some i -> hm !! c = Some h ->
                        filter_in hp h = Some None;
  (** registered handlers exist *)
  ok_handlers : ∀ c h, hm !! c = Some h -> is_Some (filter_in hp h);
  (** two connections do not share a handler *)
  ok_inj : ∀ c c' h, hm !! c = Some h -> hm !! c' = Some h -> c = c'
}.

Definition state_ok (s : CoreServer) : Prop :=
  registry_ok (waiting_for_init s) (handlers s) (virtual_groups s) (heap s).

(** The moves of the registry: every event makes one of them. *)
Inductive registry_step :
  gmap conn HandlerInitializer * gmap conn hid *
    list (Filter * list hid) * list Handler ->
  gmap conn HandlerInitializer * gmap conn hid *
    list (Filter * list hid) * list Handler -> Prop :=
| rs_same w hm g hp :
    registry_step (w, hm, g, hp) (w, hm, g, hp)
| rs_session w hm g hp c i' :
    is_Some (w !! c) ->
    registry_step (w, hm, g, hp) (<[c := i']> w, hm, g, hp)
| rs_admit w hm g hp c h f :
    hm !! c = Some h ->
    is_Some (w !! c) ->
    registry_step (w, hm, g, hp)
                  (delete c w, hm, group_add f h g,
                   alter (set_filter f) h hp)
| rs_load w hm g hp h v :
    registry_step (w, hm, g, hp) (w, hm, g, alter (set_load v) h hp)
| rs_connect w hm g hp c i :
    registry_step (w, hm, g, hp)
                  (<[c := i]> w, <[c := length hp]> hm, g,
                   hp ++ [MkHandler c None None])
| rs_disconnect w hm g hp c :
    registry_step (w, hm, g, hp) (delete c w, delete c hm, g, hp).

(** ** Further notions *)

(** The connection an event is about; a dispatch is about none. *)
Definition event_conn (ev : event) : option conn :=
  match ev with
  | Connect c | Arrive c _ | Receive c | Disconnect c => Some c
  | SendUpdate _ => None
  end.

(** A cell as [requests_handler] builds it: while the prefix is incomplete,
    [left_to_receive] counts the prefix bytes still missing; afterwards it
    is what is left of a length that fits 4 bytes. *)
Definition cell_ok (x : cell) : Prop :=
  if msg_len_received x
  then 0 <= left_to_receive x < 2 ^ 32
  else 0 < left_to_receive x <= 4 ∧
       len (received x) = 4 - left_to_receive x.

(** Two loads that are set, the first smaller than (at most) the second. *)
Definition load_below (a b : option Z) : Prop :=
  ∃ x y, a = Some x ∧ b = Some y ∧ x < y.
Definition load_at_most (a b : option Z) : Prop :=
  ∃ x y, a = Some x ∧ b = Some y ∧ x <= y.

(** The members of all groups, group after group. *)
Definition members (g : list (Filter * list hid)) : list hid :=
  concat (map snd g).

End Core.

Notation "x <- m ;; k" := (bind m (fun x => k))
  (at level 100, m at next level, right associativity).
Notation "m ;;; k" := (bind m (fun _ => k))
  (at level 100, right associativity).

(** The field updates unfold under [simpl], so that a projection of an
    updated state reduces to the field read. *)
Arguments with_requests {E} r s /.
Arguments with_responses {E} r s /.
Arguments with_waiting {E} w s /.
Arguments with_handlers {E} h s /.
Arguments with_groups {E} g s /.
Arguments with_heap {E} h s /.
Arguments with_rx {E} r s /.
Arguments with_closed {E} c s /.
Arguments with_trace {E} t s /.

(** ** A concrete set of collaborators

    Modelled from the spec: the handshake state machine of
    [HandlerInitializer] and the [Filter] token, neither among the sources.
    The worker's messages reach [next_step] as completed frames: the magic
    bytes, then one acknowledgement byte, then the filter, which must not be
    empty.  A filter is the token itself and accepts the requests that start
    with it.  The callback of this instance fails on an empty body, and a
    request can be serialised when it has no byte [0xff]. *)
Module Demo.

Inductive handshake := Start | MagicExchanged | NameSent.

Definition bytes_eqb (a b : bytes) : bool :=
  bool_decide (map byte_val a = map byte_val b).

Definition demo_next_step (st : handshake) (body : bytes)
  : handshake * step_result (list Z) :=
  match st with
  | Start =>
      if bytes_eqb body INITIAL_BYTES_SEQUENCE
      then (MagicExchanged, RBool true) else (Start, RBool false)
  | MagicExchanged =>
      if bytes_eqb body [x01]
      then (NameSent, RBool true) else (MagicExchanged, RBool false)
  | NameSent =>
      match body with
      | [] => (NameSent, RBool false)
      | _ => (NameSent, RFilter (map byte_val body))
      end
  end.

Fixpoint starts_with (f r : list Z) : bool :=
  match f, r with
  | [], _ => true
  | x :: f', y :: r' => (x =? y) && starts_with f' r'
  | _ :: _, [] => false
  end.

Definition demo_callback (h : hid) (body : bytes) : outcome :=
  match body with
  | [] => Raises
  | _ => Returns
  end.

#[export] Instance demo : Externals := {|
  Filter := list Z;
  Request := bytes;
  filter_call := fun f r => starts_with f (map byte_val r);
  HandlerInitializer := handshake;
  new_initializer := fun _ => Start;
  next_step := demo_next_step;
  callback := demo_callback;
  dumps_encode := fun r => r;
  serialisable := fun r => forallb (fun b => negb (Byte.eqb b xff)) r;
  receive_block_size := 4096
|}.

(** [h], [e], [l], [l], [o] *)
Definition hello : bytes := [x68; x65; x6c; x6c; x6f].

(** A frame: the length of the payload on 4 bytes, little-endian (payloads
    here are shorter than 256 bytes), then the payload. *)
Definition frame (payload : bytes) : bytes :=
  match Byte.of_N (N.of_nat (length payload)) with
  | Some n => [n; x00; x00; x00] ++ payload
  | None => []
  end.

(** A worker sends one frame: the prefix is read by one RECEIVE event, the
    payload by the next. *)
Definition sends (c : conn) (payload : bytes) : list event :=
  [Arrive c (frame payload); Receive c; Receive c].

Definition run (evs : list event) (s : CoreServer) : CoreServer :=
  fold_left step evs s.

(** The worker on connection [c] goes through the handshake with filter
    [f]. *)
Definition admit_worker (c : conn) (f : bytes) : list event :=
  Connect c :: sends c INITIAL_BYTES_SEQUENCE ++ sends c [x01] ++ sends c f.

(** The heartbeat frame [[1, load]]. *)
Definition heartbeat (c : conn) (load : byte) : list event :=
  sends c [x01; load].

(** The owning system dispatches a request. *)
Definition dispatch (r : bytes) : event := @SendUpdate demo r.

(** The request [/a]. *)
Definition slash_a : bytes := [x2f; x61].

(** One admitted worker, with filter [/] (byte 47). *)
Definition one_worker : CoreServer := run (admit_worker 0%nat [x2f]) init_core.

(** The same worker after its connection is gone. *)
Definition one_worker_gone : CoreServer := step one_worker (Disconnect 0%nat).

(** Three workers of one group, with loads 80, 12 and 200. *)
Definition three_workers : CoreServer :=
  run (admit_worker 0%nat [x2f] ++ admit_worker 1%nat [x2f] ++
       admit_worker 2%nat [x2f] ++
       heartbeat 0%nat x50 ++ heartbeat 1%nat x0c ++ heartbeat 2%nat xc8)
      init_core.

(** Two workers of one group; only the second has sent a heartbeat. *)
Definition cold_and_warm : CoreServer :=
  run (admit_worker 0%nat [x2f] ++ admit_worker 1%nat [x2f] ++
       heartbeat 1%nat x0c)
      init_core.

(** A fresh connection whose worker has sent the magic bytes as they are,
    without a frame around them. *)
Definition magic_sent : CoreServer :=
  run [Connect 0%nat; Arrive 0%nat INITIAL_BYTES_SEQUENCE] init_core.

(** The admitted worker has sent the application frame that is the tag 9
    alone; its prefix has been read, its payload is in the socket. *)
Definition frame_pending : CoreServer :=
  run [Arrive 0%nat (frame [x09]); Receive 0%nat] one_worker.

(** The admitted worker has sent the prefix of a frame of length 0, and the
    prefix has been read. *)
Definition empty_pending : CoreServer :=
  run [Arrive 0%nat (frame []); Receive 0%nat] one_worker.

(** Two groups that both accept the request [/a]: the group of [/], with a
    worker without load and a second worker, and the group of [/a], whose
    only worker has the load 5. *)
Definition mixed_groups : CoreServer :=
  run (admit_worker 0%nat [x2f] ++ admit_worker 1%nat [x2f] ++
       admit_worker 2%nat [x2f; x61] ++ heartbeat 2%nat x05)
      init_core.

(** A request that [dumps] cannot serialise. *)
Definition slash_binary : bytes := [x2f; xff].

(** A connection that has just been accepted. *)
Definition just_connected : CoreServer := run [Connect 0%nat] init_core.

(** A worker that has sent the magic bytes and the acknowledgement, each in
    a frame, and has still to send its filter. *)
Definition in_handshake : CoreServer :=
  run (Connect 0%nat :: sends 0%nat INITIAL_BYTES_SEQUENCE
         ++ sends 0%nat [x01])
      init_core.

(** Three workers of one group, with loads 12, 12 and 200. *)
Definition tied_workers : CoreServer :=
  run (admit_worker 0%nat [x2f] ++ admit_worker 1%nat [x2f] ++
       admit_worker 2%nat [x2f] ++
       heartbeat 0%nat x0c ++ heartbeat 1%nat x0c ++ heartbeat 2%nat xc8)
      init_core.

(** What happens elsewhere while connection 0 waits for its payload: a
    second worker is admitted, reports its load, a request is dispatched,
    and the second worker disconnects. *)
Definition elsewhere : list event :=
  admit_worker 1%nat [x2f] ++ heartbeat 1%nat x0c ++
  [dispatch slash_a; Disconnect 1%nat].

End Demo.

(** * The web side: [rush/core/handlers.py] and [webserver.py]

    The routes of [WebServer], the choice of a route for a request and the
    call of the chosen route with its error handling. *)
Module Rush.

(** Exceptions, by the [except] clause of [call_handler] that catches them.
    [BaseOnly] is a [BaseException] that is no [Exception], such as
    [KeyboardInterrupt]: no clause catches it. *)
Inductive exc :=
| FileNotFoundError
| NotFound
| OtherException
| BaseOnly.

(** What a call of a function of the application does. *)
Inductive call_result :=
| Returned
| Raised (e : exc).

(** What the manager needs of the application and of
    [rush.core.entities]: the request object, which [build] fills from the
    arguments of [call_handler], the route functions by name, the two error
    handlers and [raw_response]. *)
Class App := {
  Args : Type;
  Request : Type;
  Target : Type;
  build : Args -> Request;
  req_path : Request -> string;
  req_method : Request -> string;
  call_func : string -> Request -> call_result;
  (** whether [handler.func.__name__] is there for the log line *)
  named : string -> bool;
  not_found_handler : Request -> call_result;
  internal_error_handler : Request -> call_result;
  raw_response : Request -> Target -> call_result
}.

Section Manager.
Context {A : App}.

(** Calls made by [call_handler], in order. *)
Inductive call :=
| CFunc (name : string)          (* handler.func(request_obj) *)
| CNotFound                      (* self.not_found_handler(request_obj) *)
| CInternalError                 (* self.internal_error_handler(request_obj) *)
| CLog                           (* logger.error(...) *)
| CRawResponse (to : Target).    (* request_obj.raw_response(to) *)

(** The attributes of a [rush.core.entities.Handler] that are read here. *)
Record Handler := MkRoute {
  func : string;
  path_route : string;
  any_paths : bool;
  methods : list string;
  filter : option (Request -> bool)
}.

(** [_pick_handler]: the three tests of the loop, each a [continue].  A
    filter is a predicate that returns and [methods] a list of strings: a
    filter that raises, or a [methods] that is no container, ends
    [call_handler] before its [try] statement and is not covered here. *)
Fixpoint _pick_handler (handlers : list Handler) (request : Request)
  : option Handler :=
  match handlers with
  | [] => None
  | handler :: rest =>
      if negb (bool_decide (path_route handler = req_path request)
               || bool_decide (path_route handler = "*"))
         && negb (any_paths handler)
      then _pick_handler rest request
      else if negb (bool_decide (req_method request ∈ methods handler))
      then _pick_handler rest request
      else if match filter handler with
              | Some f => negb (f request)
              | None => false
              end
      then _pick_handler rest request
      else Some handler
  end.

(** The manager: [self.handlers] and [self.redirects]. *)
Record HandlersManager := MkManager {
  handlers : list Handler;
  redirects : gmap string Target
}.

(** The [try] statement of [call_handler], for the chosen handler.  The log
    line of the last clause reads [handler.func.__name__]: without that
    attribute it raises in its turn, an [AttributeError], before anything is
    logged and before the internal-error handler is called. *)
Definition call_route (handler : Handler) (request_obj : Request)
  : list call * call_result :=
  match call_func (func handler) request_obj with
  | Returned => ([CFunc (func handler)], Returned)
  | Raised FileNotFoundError | Raised NotFound =>
      ([CFunc (func handler); CNotFound], not_found_handler request_obj)
  | Raised OtherException =>
      if named (func handler)
      then ([CFunc (func handler); CLog; CInternalError],
            internal_error_handler request_obj)
      else ([CFunc (func handler)], Raised OtherException)
  | Raised BaseOnly => ([CFunc (func handler)], Raised BaseOnly)
  end.

(** [call_handler]: the calls it makes, and how it ends. *)
Definition call_handler (self : HandlersManager) (args : Args)
  : list call * call_result :=
  let request_obj := build args in
  match redirects self !! req_path request_obj with
  | Some to => ([CRawResponse to], raw_response request_obj to)
  | None =>
      match _pick_handler (handlers self) request_obj with
      | None => ([CNotFound], not_found_handler request_obj)
      | Some handler => call_route handler request_obj
      end
  end.

(** [WebServer.add_redirect] and [WebServer.add_redirects], on the
    dictionary that the manager is given. *)
Definition add_redirect (from_path : string) (to : Target)
                        (self : HandlersManager) : HandlersManager :=
  MkManager (handlers self) (<[from_path := to]> (redirects self)).

Definition add_redirects (new : gmap string Target)
                         (self : HandlersManager) : HandlersManager :=
  MkManager (handlers self) (new ∪ redirects self).

(** [WebServer.route]: the path is given a leading slash unless it starts
    with one or with a star; an empty path has no [path[0]].  [entity] is
    the constructor [core.entities.Handler(func=, filter_=, path_route=,
    methods=)]. *)
Definition route_path (path : string) : res string :=
  match path with
  | EmptyString => Raise IndexError
  | String c _ =>
      if bool_decide (c = "/"%char) || bool_decide (c = "*"%char)
      then Ok path
      else Ok ("/" +:+ path)
  end.

Definition route
    (entity : string -> option (Request -> bool) -> string ->
              list string -> Handler)
    (path : string) (methods_ : list string)
    (filter_ : option (Request -> bool)) (f : string)
    (self : HandlersManager) : res HandlersManager :=
  match route_path path with
  | Raise e => Raise e
  | Ok path' =>
      Ok (MkManager (handlers self ++ [entity f filter_ path' methods_])
                    (redirects self))
  end.

(** A route takes a request: its path is the one of the request, or the
    star, or the route takes any path; it has the method; its filter, if
    any, lets the request through. *)
Definition takes (handler : Handler) (request : Request) : Prop :=
  (path_route handler = req_path request ∨ path_route handler = "*" ∨
   any_paths handler = true) ∧
  req_method request ∈ methods handler ∧
  ∀ f, filter handler = Some f -> f request = true.

(** The three tests of the loop in one. *)
Definition passes (handler : Handler) (request : Request) : bool :=
  (bool_decide (path_route handler = req_path request)
   || bool_decide (path_route handler = "*") || any_paths handler)
  && bool_decide (req_method request ∈ methods handler)
  && match filter handler with
     | Some f => f request
     | None => true
     end.

End Manager.

End Rush.

(** A small application for the web side: a request is its method and its
    path, the route functions [boom] and [partial] raise, [missing] does not
    find its file, [stop] is interrupted, every other function returns, and
    so do the error handlers and [raw_response].  [partial] has no
    [__name__]. *)
Module Site.

Definition site_call (name : string) (r : string * string)
  : Rush.call_result :=
  if bool_decide (name = "boom") || bool_decide (name = "partial")
  then Rush.Raised Rush.OtherException
  else if bool_decide (name = "missing")
       then Rush.Raised Rush.FileNotFoundError
  else if bool_decide (name = "stop") then Rush.Raised Rush.BaseOnly
  else Rush.Returned.

#[export] Instance site : Rush.App := {|
  Rush.Args := string * string;
  Rush.Request := string * string;
  Rush.Target := string;
  Rush.build := fun a => a;
  Rush.req_path := snd;
  Rush.req_method := fst;
  Rush.call_func := site_call;
  Rush.named := fun name => negb (bool_decide (name = "partial"));
  Rush.not_found_handler := fun _ => Rush.Returned;
  Rush.internal_error_handler := fun _ => Rush.Returned;
  Rush.raw_response := fun _ _ => Rush.Returned
|}.

(** An entity that keeps what it is given and takes any path when its
    route is the star. *)
Definition entity (f : string) (flt : option (string * string -> bool))
                  (p : string) (m : list string) : Rush.Handler :=
  Rush.MkRoute f p (bool_decide (p = "*")) m flt.

Definition manager : Rush.HandlersManager :=
  Rush.MkManager
    [entity "index" None "/" ["GET"];
     entity "boom" None "/boom" ["GET"; "POST"];
     entity "stop" None "/stop" ["GET"];
     entity "fallback" None "*" ["GET"]]
    {["/old" := "/"]}.

End Site.

(** * Properties *)

Section Facts.
Context {E : Externals}.

(** ** Basic facts *)

Lemma byte_val_range (b : byte) : 0 <= byte_val b <= 255.
Proof.
  unfold byte_val. pose proof (Byte.to_N_bounded b) as Hb. lia.
Qed.

Lemma len_app (a b : bytes) : len (a ++ b) = len a + len b.
Proof. unfold len. rewrite length_app. lia. Qed.

Lemma len_nonneg (a : bytes) : 0 <= len a.
Proof. unfold len. lia. Qed.

Local Ltac run := unfold bind, gets, modify, ret, raise, emit; simpl.

(** ** Classification of completed frames *)

Lemma response_unregistered (s : CoreServer) c body :
  handlers s !! c = None -> response c body s = (Raise KeyError, s).
Proof. intros Hh. unfold response. run. by rewrite Hh. Qed.

Lemma response_heartbeat (s : CoreServer) c h tag l rest :
  handlers s !! c = Some h ->
  waiting_for_init s !! c = None ->
  byte_val tag = HEARTBEAT ->
  response c (tag :: l :: rest) s
  = (Ok tt, with_heap (alter (set_load (byte_val l)) h (heap s)) s).
Proof.
  intros Hh Hw Htag. unfold response, update_handler. run.
  rewrite Hh, Hw, Htag. reflexivity.
Qed.

Lemma response_application (s : CoreServer) c h tag rest :
  handlers s !! c = Some h ->
  waiting_for_init s !! c = None ->
  byte_val tag ≠ HEARTBEAT ->
  response c (tag :: rest) s
  = (match callback h rest with
     | Returns => Ok tt
     | Raises => Raise CallbackError
     end,
     with_trace (trace s ++ [ECallback h rest]) s).
Proof.
  intros Hh Hw Htag. unfold response. run.
  rewrite Hh, Hw. apply Z.eqb_neq in Htag. rewrite Htag.
  by destruct (callback h rest).
Qed.

Lemma response_empty (s : CoreServer) c h :
  handlers s !! c = Some h ->
  waiting_for_init s !! c = None ->
  response c [] s = (Raise IndexError, s).
Proof. intros Hh Hw. unfold response. run. by rewrite Hh, Hw. Qed.

Lemma response_lone_heartbeat (s : CoreServer) c h tag :
  handlers s !! c = Some h ->
  waiting_for_init s !! c = None ->
  byte_val tag = HEARTBEAT ->
  response c [tag] s = (Raise IndexError, s).
Proof.
  intros Hh Hw Htag. unfold response. run. by rewrite Hh, Hw, Htag.
Qed.

(** The RECEIVE event of a connection whose length prefix is known: it asks
    for what is left, or for a block when more than a block is left. *)
Lemma body_read_block (s : CoreServer) c left acc :
  requests s !! c = Some (Cell true left acc) ->
  c ∉ closed s ->
  0 <= left ->
  0 <= receive_block_size ->
  requests_handler c s
  = let buf := default [] (rx s !! c) in
    let n := Z.to_nat (Z.min left receive_block_size) in
    let got := take n buf in
    let s1 := with_requests
                (<[c := Cell true (left - len got) (acc ++ got)]> (requests s))
                (with_rx (<[c := drop n buf]> (rx s)) s) in
    if left - len got <=? 0
    then (response c (acc ++ got) ;;; pop_request c) s1
    else (Ok tt, s1).
Proof.
  intros Hr Hc Hleft Hblock.
  unfold requests_handler, conn_recv, set_request. run.
  rewrite Hr. simpl.
  destruct (decide (c ∈ closed s)) as [|_]; [done|].
  assert ((if left <=? receive_block_size then left else receive_block_size)
          = Z.min left receive_block_size) as ->.
  { destruct (left <=? receive_block_size) eqn:Hle; lia. }
  assert ((Z.min left receive_block_size <? 0) = false) as -> by lia.
  by destruct (left - len (take (Z.to_nat (Z.min left receive_block_size))
                                (default [] (rx s !! c))) <=? 0).
Qed.

Lemma body_read (s : CoreServer) c left acc :
  requests s !! c = Some (Cell true left acc) ->
  c ∉ closed s ->
  0 <= left <= receive_block_size ->
  requests_handler c s
  = let buf := default [] (rx s !! c) in
    let got := take (Z.to_nat left) buf in
    let s1 := with_requests
                (<[c := Cell true (left - len got) (acc ++ got)]> (requests s))
                (with_rx (<[c := drop (Z.to_nat left) buf]> (rx s)) s) in
    if left - len got <=? 0
    then (response c (acc ++ got) ;;; pop_request c) s1
    else (Ok tt, s1).
Proof.
  intros Hr Hc Hb. rewrite (body_read_block s c left acc) by (done || lia).
  by rewrite Z.min_l by lia.
Qed.

(** C6: on an admitted connection a completed frame whose tag byte is 1 is a
    heartbeat: its second byte, a value from 0 to 255, becomes the load of
    that connection's handler whatever the load was before, no other handler
    object changes, and nothing is called (the trace, which would record a
    call of the response callback, is unchanged). *)
Theorem heartbeat_overwrites_load (s : CoreServer) c h o tag l rest :
  handlers s !! c = Some h ->
  waiting_for_init s !! c = None ->
  heap s !! h = Some o ->
  byte_val tag = HEARTBEAT ->
  ∃ s',
    response c (tag :: l :: rest) s = (Ok tt, s') ∧
    heap s' !! h = Some (MkHandler (h_conn o) (Some (byte_val l)) (h_filter o)) ∧
    0 <= byte_val l <= 255 ∧
    (∀ h', h' ≠ h -> heap s' !! h' = heap s !! h') ∧
    trace s' = trace s ∧
    handlers s' = handlers s ∧
    virtual_groups s' = virtual_groups s.
Proof.
  intros Hh Hw Ho Htag. eexists. split.
  - by apply response_heartbeat.
  - simpl. repeat split; try apply byte_val_range.
    + rewrite list_lookup_alter, decide_True by done. by rewrite Ho.
    + intros h' Hne. by rewrite list_lookup_alter_ne.
Qed.


(** C10: classification is partial in the length of the frame.  On an
    admitted connection the empty payload raises [IndexError] (at
    [response_body[0]]), a payload that is the tag 1 alone raises
    [IndexError] (at [response_body[1]]), and these are the only payloads
    that do: [response] raises [IndexError] exactly when the payload has no
    byte, or has the tag 1 and no second byte.  A frame that declares length
    0 does reach [response]: the RECEIVE event after its prefix reads no
    byte and raises. *)
Theorem classification_needs_bytes (s : CoreServer) c h :
  handlers s !! c = Some h ->
  waiting_for_init s !! c = None ->
  response c [] s = (Raise IndexError, s) ∧
  (∀ tag, byte_val tag = HEARTBEAT ->
          response c [tag] s = (Raise IndexError, s)) ∧
  (∀ body, fst (response c body s) = Raise IndexError <->
           (len body < 1 ∨
            ∃ tag, body = [tag] ∧ byte_val tag = HEARTBEAT)) ∧
  (requests s !! c = Some (Cell true 0 []) -> c ∉ closed s ->
   0 <= receive_block_size ->
   fst (requests_handler c s) = Raise IndexError).
Proof.
  intros Hh Hw. split; [by eapply response_empty |].
  split; [intros; by eapply response_lone_heartbeat |].
  split.
  - intros body. destruct body as [|tag [|l rest]].
    + rewrite (response_empty s c h) by done. simpl. split; [|done].
      intros _. left. unfold len. simpl. lia.
    + destruct (decide (byte_val tag = HEARTBEAT)) as [Ht|Ht].
      * rewrite (response_lone_heartbeat s c h) by done. simpl.
        split; [|done]. intros _. right. by exists tag.
      * rewrite (response_application s c h) by done. simpl. split.
        -- by destruct (callback h []).
        -- intros [Hl|(t & Heq & Hv)].
           ++ unfold len in Hl. simpl in Hl. lia.
           ++ congruence.
    + destruct (decide (byte_val tag = HEARTBEAT)) as [Ht|Ht].
      * rewrite (response_heartbeat s c h) by done. simpl. split; [done|].
        intros [Hl|(t & Heq & Hv)]; [|done].
        unfold len in Hl. simpl in Hl. lia.
      * rewrite (response_application s c h) by done. simpl. split.
        -- by destruct (callback h (l :: rest)).
        -- intros [Hl|(t & Heq & Hv)]; [|done].
           unfold len in Hl. simpl in Hl. lia.
  - intros Hr Hc Hb. rewrite (body_read s c 0 []) by (done || lia).
    simpl. unfold bind. rewrite (response_empty _ c h); done.
Qed.

(** ** Reassembly *)

Lemma first_read (s : CoreServer) c :
  requests s !! c = None ->
  c ∉ closed s ->
  requests_handler c s
  = let buf := default [] (rx s !! c) in
    let got := take 4 buf in
    (Ok tt,
     with_requests
       (<[c := if len got =? 4
               then Cell true (int_from_bytes_little got) []
               else Cell false (4 - len got) got]> (requests s))
       (with_rx (<[c := drop 4 buf]> (rx s)) s)).
Proof.
  intros Hr Hc. unfold requests_handler, conn_recv, set_request. run.
  rewrite Hr. destruct (decide (c ∈ closed s)) as [|_]; [done|]. simpl.
  change (Z.to_nat 4) with 4%nat.
  by destruct (len (take 4 (default [] (rx s !! c))) =? 4).
Qed.

(** C2: a connection that is still in [waiting_for_init] gets no other
    treatment from [requests_handler] than an admitted one: the first 4
    bytes it sends are taken as the little-endian length of a frame, the
    handshake state machine is not called and its state does not change. *)
Theorem handshake_bytes_read_as_length (s : CoreServer) c i magic more :
  waiting_for_init s !! c = Some i ->
  requests s !! c = None ->
  c ∉ closed s ->
  rx s !! c = Some (magic ++ more) ->
  length magic = 4%nat ->
  ∃ s',
    requests_handler c s = (Ok tt, s') ∧
    requests s' !! c = Some (Cell true (int_from_bytes_little magic) []) ∧
    waiting_for_init s' !! c = Some i ∧
    trace s' = trace s.
Proof.
  intros Hw Hr Hc Hrx Hlen. eexists. split.
  - by apply first_read.
  - simpl. rewrite Hrx. simpl.
    rewrite take_app_length' by done.
    unfold len. rewrite Hlen. simpl.
    by rewrite lookup_insert_eq.
Qed.

Lemma partial_prefix_raises c (chunks : list bytes) :
  ∀ (s : CoreServer) left acc,
    requests s !! c = Some (Cell false left acc) ->
    c ∉ closed s ->
    default [] (rx s !! c) = [] ->
    0 < left ->
    left <= len (concat chunks) ->
    ∃ s', deliver c chunks s = (Raise TypeError, s') ∧
          trace s' = trace s ∧ heap s' = heap s.
Proof.
  induction chunks as [|chunk chunks IH]; intros s left acc Hr Hc Hrx Hpos Hsum.
  - unfold len in Hsum. simpl in Hsum. lia.
  - simpl. unfold arrive, requests_handler, conn_recv, set_request. run.
    rewrite Hr, Hrx. simpl.
    destruct (decide (c ∈ closed s)) as [|_]; [done|].
    assert ((left <? 0) = false) as -> by lia.
    rewrite lookup_insert_eq. simpl.
    destruct (left - len (take (Z.to_nat left) chunk) <=? 0) eqn:Hdone.
    + eexists. split; [reflexivity|]. by simpl.
    + apply Z.leb_gt in Hdone.
      assert (length chunk < Z.to_nat left)%nat as Hshort.
      { unfold len in Hdone. rewrite length_take in Hdone. lia. }
      rewrite take_ge, drop_ge by lia.
      rewrite take_ge in Hdone by lia.
      simpl in Hsum. rewrite len_app in Hsum.
      match goal with
      | |- ∃ s', deliver c chunks ?s1 = _ ∧ _ =>
          destruct (IH s1 (left - len chunk) (acc ++ chunk)) as (s' & Hrun & Ht & Hhp)
      end; simpl; try done.
      * by rewrite lookup_insert_eq.
      * by rewrite lookup_insert_eq.
      * lia.
      * exists s'. split; [exact Hrun|]. simpl in Ht, Hhp. done.
Qed.

(** C1: when the first read of a connection delivers fewer than 4 bytes,
    the reassembly never completes.  However the rest of the message is
    split into reads, the read that brings the fourth byte of the length
    prefix raises [TypeError] (the sum of an [int] and a [bytes]), and up to
    there no frame is handed on: no collaborator was called and no handler
    object changed. *)
Theorem split_prefix_raises (s : CoreServer) c first (rest : list bytes) :
  requests s !! c = None ->
  c ∉ closed s ->
  default [] (rx s !! c) = [] ->
  (length first < 4)%nat ->
  (4 <= length (first ++ concat rest))%nat ->
  ∃ s', deliver c (first :: rest) s = (Raise TypeError, s') ∧
        trace s' = trace s ∧ heap s' = heap s.
Proof.
  intros Hr Hc Hrx Hshort Hsum. simpl. unfold arrive. run.
  rewrite Hrx. simpl. rewrite first_read; simpl.
  2: done. 2: done.
  rewrite lookup_insert_eq. simpl.
  rewrite take_ge, drop_ge by lia.
  assert ((len first =? 4) = false) as ->.
  { apply Z.eqb_neq. unfold len. lia. }
  rewrite length_app in Hsum.
  match goal with
  | |- ∃ s', deliver c rest ?s1 = _ ∧ _ =>
      destruct (partial_prefix_raises c rest s1 (4 - len first) first)
        as (s' & Hrun & Ht & Hhp)
  end; simpl; try done.
  - by rewrite lookup_insert_eq.
  - by rewrite lookup_insert_eq.
  - unfold len. lia.
  - unfold len. lia.
  - exists s'. split; [exact Hrun|]. simpl in Ht, Hhp. done.
Qed.

(** Once the prefix is known, the payload is put together from any reads
    that bring at least one byte and at most a block each, and handed to
    [response] when its last byte is in. *)
Lemma body_chunks c (chunks : list bytes) :
  ∀ (s : CoreServer) left acc,
    requests s !! c = Some (Cell true left acc) ->
    c ∉ closed s ->
    default [] (rx s !! c) = [] ->
    chunks ≠ [] ->
    Forall (λ ch, 0 < len ch <= receive_block_size) chunks ->
    left = len (concat chunks) ->
    deliver c chunks s
    = (response c (acc ++ concat chunks) ;;; pop_request c)
        (with_requests
           (<[c := Cell true 0 (acc ++ concat chunks)]> (requests s))
           (with_rx (<[c := []]> (rx s)) s)).
Proof.
  induction chunks as [|ch chunks IH];
    intros s left acc Hr Hc Hrx Hne Hall Hleft; [done|].
  apply Forall_cons in Hall as [[Hpos Hblock] Hall].
  simpl in Hleft. rewrite len_app in Hleft.
  pose proof (len_nonneg (concat chunks)) as Hrest.
  simpl. unfold arrive. run. rewrite Hrx. simpl.
  rewrite (body_read_block _ c left acc); simpl; [|done|done|lia|lia].
  rewrite lookup_insert_eq. simpl.
  assert (length ch <= Z.to_nat (Z.min left receive_block_size))%nat as Hfit.
  { unfold len in *. lia. }
  rewrite take_ge, drop_ge by done.
  rewrite !insert_insert_eq.
  destruct chunks as [|ch' chunks].
  - simpl in *. rewrite app_nil_r.
    assert (left - len ch = 0) as -> by (unfold len in *; simpl in *; lia).
    simpl. unfold bind.
    match goal with
    | |- context [response c ?b ?s1] => destruct (response c b s1) as [[[]|e] s2]
    end; [|done].
    by destruct (pop_request c s2) as [[[]|e] s3].
  - assert (0 < len ch') as Hpos'.
    { apply Forall_cons in Hall as [[Hp _] _]. done. }
    assert ((left - len ch <=? 0) = false) as ->.
    { apply Z.leb_gt. simpl in Hleft. rewrite len_app in Hleft.
      pose proof (len_nonneg (concat chunks)). lia. }
    rewrite (IH _ (left - len ch) (acc ++ ch)); simpl.
    + by rewrite !insert_insert_eq, <- app_assoc.
    + by rewrite lookup_insert_eq.
    + done.
    + by rewrite lookup_insert_eq.
    + done.
    + done.
    + simpl in Hleft |- *. lia.
Qed.

(** When the first read of a connection brings the whole prefix, every split
    of the payload into reads of at least one byte and at most a block ends
    with one call of [response] on the payload, byte for byte, followed by
    the removal of the cell. *)
Theorem whole_prefix_reassembly (s : CoreServer) c prefix (chunks : list bytes) :
  requests s !! c = None ->
  c ∉ closed s ->
  default [] (rx s !! c) = [] ->
  length prefix = 4%nat ->
  int_from_bytes_little prefix = len (concat chunks) ->
  chunks ≠ [] ->
  Forall (λ ch, 0 < len ch <= receive_block_size) chunks ->
  deliver c (prefix :: chunks) s
  = (response c (concat chunks) ;;; pop_request c)
      (with_requests (<[c := Cell true 0 (concat chunks)]> (requests s))
                     (with_rx (<[c := []]> (rx s)) s)).
Proof.
  intros Hr Hc Hrx Hlen Hval Hne Hall.
  simpl. unfold arrive. run. rewrite Hrx. simpl.
  rewrite first_read; simpl; [|done|done].
  rewrite lookup_insert_eq. simpl.
  rewrite take_ge, drop_ge by lia.
  assert ((len prefix =? 4) = true) as ->.
  { apply Z.eqb_eq. unfold len. lia. }
  rewrite (body_chunks c chunks _ (int_from_bytes_little prefix) []); simpl.
  - by rewrite !insert_insert_eq.
  - by rewrite lookup_insert_eq.
  - done.
  - by rewrite lookup_insert_eq.
  - done.
  - done.
  - done.
Qed.

(** C8: nothing in the core catches what the response callback raises.  When
    the read that completes an application frame calls a callback that
    raises, the exception leaves [response] and leaves [requests_handler];
    the callback was called once, and because [requests.pop] is skipped the
    cell of the connection stays, complete, with nothing left to receive. *)
Theorem callback_failure_propagates
    (s : CoreServer) c h left acc chunk more tag rest :
  handlers s !! c = Some h ->
  waiting_for_init s !! c = None ->
  c ∉ closed s ->
  requests s !! c = Some (Cell true left acc) ->
  rx s !! c = Some (chunk ++ more) ->
  len chunk = left ->
  left <= receive_block_size ->
  acc ++ chunk = tag :: rest ->
  byte_val tag ≠ HEARTBEAT ->
  callback h rest = Raises ->
  fst (response c (tag :: rest) s) = Raise CallbackError ∧
  ∃ s',
    requests_handler c s = (Raise CallbackError, s') ∧
    requests s' !! c = Some (Cell true 0 (tag :: rest)) ∧
    trace s' = trace s ++ [ECallback h rest].
Proof.
  intros Hh Hw Hc Hr Hrx Hlen Hblock Hbody Htag Hcb. split.
  - rewrite (response_application s c h) by done. simpl. by rewrite Hcb.
  - pose proof (len_nonneg chunk) as Hnn.
    rewrite (body_read s c left acc) by (done || lia).
    rewrite Hrx. simpl.
    assert (Z.to_nat left = length chunk) as -> by (unfold len in Hlen; lia).
    rewrite take_app_length, Hlen, Z.sub_diag, Hbody. simpl.
    unfold bind. rewrite (response_application _ c h) by done.
    rewrite Hcb. simpl. eexists. split; [reflexivity|]. simpl.
    by rewrite lookup_insert_eq.
Qed.

(** ** Tear-down *)

(** C3: for a registered connection, in whatever state (in handshake, in the
    middle of a frame, admitted), [disconn_handler] returns, having removed
    the connection from the handshake sessions, the pending frames, the
    responses and the handlers and having closed the socket; it leaves
    [virtual_groups] and the handler objects as they are, so an admitted
    handler stays a member of its group.  A second run for the same
    connection changes none of the dictionaries. *)
Theorem disconnect_clears_maps (s : CoreServer) c h :
  handlers s !! c = Some h ->
  ∃ s',
    disconn_handler c s = (Ok tt, s') ∧
    waiting_for_init s' = delete c (waiting_for_init s) ∧
    requests s' = delete c (requests s) ∧
    responses s' = delete c (responses s) ∧
    handlers s' = delete c (handlers s) ∧
    c ∈ closed s' ∧
    trace s' = trace s ++ [EClose c] ∧
    virtual_groups s' = virtual_groups s ∧
    heap s' = heap s ∧
    let s'' := snd (disconn_handler c s') in
    waiting_for_init s'' = waiting_for_init s' ∧
    requests s'' = requests s' ∧
    responses s'' = responses s' ∧
    handlers s'' = handlers s' ∧
    virtual_groups s'' = virtual_groups s' ∧
    heap s'' = heap s' ∧
    closed s'' = closed s'.
Proof.
  intros Hh. eexists. split.
  - unfold disconn_handler, conn_close. run. by rewrite Hh.
  - simpl. repeat split; try done.
    + set_solver.
    + unfold disconn_handler, conn_close. run.
      rewrite lookup_delete_eq. simpl. apply delete_delete_eq.
    + unfold disconn_handler, conn_close. run.
      rewrite lookup_delete_eq. simpl. apply delete_delete_eq.
    + unfold disconn_handler, conn_close. run.
      rewrite lookup_delete_eq. simpl. apply delete_delete_eq.
    + unfold disconn_handler, conn_close. run.
      by rewrite lookup_delete_eq.
    + unfold disconn_handler, conn_close. run.
      by rewrite lookup_delete_eq.
    + unfold disconn_handler, conn_close. run.
      by rewrite lookup_delete_eq.
    + unfold disconn_handler, conn_close. run.
      rewrite lookup_delete_eq. simpl.
      by rewrite (assoc_L (∪)), (idemp_L (∪)).
Qed.

(** ** The registry under events *)

Local Ltac reg := unfold registry; simpl.

Lemma response_registry (s : CoreServer) c body :
  registry_step (registry s) (registry (snd (response c body s))).
Proof.
  unfold response, update_handler, conn_close. run.
  destruct (handlers s !! c) as [h|] eqn:Hh; simpl; [|apply rs_same].
  destruct (waiting_for_init s !! c) as [i|] eqn:Hw; simpl.
  - destruct (next_step i body) as [i' [b|f]]; simpl.
    + destruct b; reg; apply rs_session; rewrite Hw; eauto.
    + reg. rewrite delete_insert_eq. apply rs_admit; [done|].
      rewrite Hw; eauto.
  - destruct body as [|tag rest]; simpl; [apply rs_same|].
    destruct (byte_val tag =? HEARTBEAT); simpl.
    + destruct rest; simpl; [apply rs_same | apply rs_load].
    + destruct (callback h rest); simpl; apply rs_same.
Qed.

Lemma requests_handler_registry (s : CoreServer) c :
  registry_step (registry s) (registry (snd (requests_handler c s))).
Proof.
  unfold requests_handler, conn_recv, set_request, pop_request. run.
  destruct (requests s !! c) as [[known left acc]|] eqn:Hr; simpl.
  - destruct known; simpl.
    + case_decide; simpl; [apply rs_same|].
      destruct (_ <? 0); simpl; [apply rs_same|].
      match goal with |- context [if ?b then _ else _] => destruct b end;
        simpl; [|apply rs_same].
      match goal with
      | |- context [response c ?body ?s1] =>
          pose proof (response_registry s1 c body) as Hstep;
          destruct (response c body s1) as [[[]|e] s2]
      end; simpl in *.
      * destruct (requests s2 !! c); exact Hstep.
      * exact Hstep.
    + case_decide; simpl; [apply rs_same|].
      destruct (left <? 0); simpl; [apply rs_same|].
      match goal with |- context [if ?b then _ else _] => destruct b end;
        simpl; apply rs_same.
  - case_decide; simpl; [apply rs_same|].
    match goal with |- context [if ?b then _ else _] => destruct b end;
      simpl; apply rs_same.
Qed.

(** One turn of the loop of [send_update]. *)
Lemma send_update_loop_cons request f hs (items : list (Filter * list hid))
    (s : CoreServer) :
  send_update_loop ((f, hs) :: items) request s
  = if filter_call f request
    then match min_by_load (heap s) hs with
         | Ok h =>
             if serialisable request
             then send_update_loop items request
                    (with_trace (trace s ++ [ESend h (dumps_encode request)])
                                s)
             else (Raise TypeError, s)
         | Raise e => (Raise e, s)
         end
    else send_update_loop items request s.
Proof.
  simpl. unfold handler_send, dumps. run.
  destruct (filter_call f request); simpl; [|done].
  destruct (min_by_load (heap s) hs) as [h|e]; simpl; [|done].
  by destruct (serialisable request).
Qed.

(** A dispatch touches nothing but the trace. *)
Lemma send_update_loop_trace request (items : list (Filter * list hid)) :
  ∀ s : CoreServer,
    ∃ t, snd (send_update_loop items request s) = with_trace (trace s ++ t) s.
Proof.
  induction items as [|[f hs] items IH]; intros s.
  - simpl. exists []. unfold ret. simpl. rewrite app_nil_r. by destruct s.
  - rewrite send_update_loop_cons.
    destruct (filter_call f request); simpl.
    + destruct (min_by_load (heap s) hs) as [h|e]; simpl.
      * destruct (serialisable request); simpl.
        -- match goal with
           | |- context [send_update_loop items request ?s1] =>
               destruct (IH s1) as [t Ht]
           end.
           rewrite Ht. simpl. eexists. by rewrite <- app_assoc.
        -- exists []. rewrite app_nil_r. by destruct s.
      * exists []. rewrite app_nil_r. by destruct s.
    + apply IH.
Qed.

Lemma send_update_registry (s : CoreServer) request :
  registry (snd (send_update request s)) = registry s.
Proof.
  unfold send_update. run.
  destruct (send_update_loop_trace request (virtual_groups s) s) as [t Ht].
  by rewrite Ht.
Qed.

Lemma step_registry (s : CoreServer) ev :
  registry_step (registry s) (registry (step s ev)).
Proof.
  unfold step. destruct ev as [c|c data|c|c|request]; simpl.
  - unfold conn_handler, conn_getpeername, new_handler. run.
    case_decide; simpl; [apply rs_same|apply rs_connect].
  - apply rs_same.
  - apply requests_handler_registry.
  - unfold disconn_handler, conn_close. run.
    destruct (handlers s !! c) as [h|] eqn:Hh; reg.
    + apply rs_disconnect.
    + rewrite <- (delete_id (handlers s) c) at 2 by done.
      apply rs_disconnect.
  - rewrite send_update_registry. apply rs_same.
Qed.

(** ** Handler objects and groups *)

Lemma filter_in_is_Some (hp : list Handler) h :
  is_Some (filter_in hp h) <-> (h < length hp)%nat.
Proof.
  unfold filter_in. rewrite fmap_is_Some. apply lookup_lt_is_Some.
Qed.

Lemma filter_in_set_load (hp : list Handler) h v x :
  filter_in (alter (set_load v) h hp) x = filter_in hp x.
Proof.
  unfold filter_in. rewrite list_lookup_alter. case_decide; [|done].
  subst. by destruct (hp !! x).
Qed.

Lemma filter_in_set_filter_ne (hp : list Handler) h f x :
  x ≠ h -> filter_in (alter (set_filter f) h hp) x = filter_in hp x.
Proof.
  intros Hne. unfold filter_in. by rewrite list_lookup_alter_ne.
Qed.

Lemma filter_in_set_filter_eq (hp : list Handler) h f :
  is_Some (filter_in hp h) ->
  filter_in (alter (set_filter f) h hp) h = Some (Some f).
Proof.
  unfold filter_in. rewrite fmap_is_Some. intros [o Ho].
  rewrite list_lookup_alter, decide_True by done. by rewrite Ho.
Qed.

Lemma filter_in_new_old (hp : list Handler) c x :
  is_Some (filter_in hp x) ->
  filter_in (hp ++ [MkHandler c None None]) x = filter_in hp x.
Proof.
  intros Hx. apply filter_in_is_Some in Hx.
  unfold filter_in. by rewrite lookup_app_l.
Qed.

Lemma filter_in_new (hp : list Handler) c x :
  filter_in (hp ++ [MkHandler c None None]) x
  = if decide (x = length hp) then Some None else filter_in hp x.
Proof.
  unfold filter_in. case_decide as Hx.
  - subst. by rewrite lookup_app_r, Nat.sub_diag.
  - destruct (decide (x < length hp)%nat).
    + by rewrite lookup_app_l.
    + rewrite lookup_app_r by lia.
      rewrite (lookup_ge_None_2 hp) by lia.
      destruct (x - length hp)%nat eqn:Hd; [lia|]. done.
Qed.

Lemma elem_of_group_add f h (g : list (Filter * list hid)) f' hs' :
  (f', hs') ∈ group_add f h g ->
  (f', hs') ∈ g ∨
  (f' = f ∧ (hs' = [h] ∨ ∃ hs, (f, hs) ∈ g ∧ hs' = hs ++ [h])).
Proof.
  induction g as [|[f0 hs0] g IH]; simpl.
  - intros Hin. apply list_elem_of_singleton in Hin.
    injection Hin as -> ->. right. split; [done|]. by left.
  - case_decide as Hf; intros Hin; apply elem_of_cons in Hin.
    + destruct Hin as [Heq|Hin].
      * injection Heq as -> ->. subst. right. split; [done|]. right.
        exists hs0. split; [|done]. apply elem_of_cons. by left.
      * left. apply elem_of_cons. by right.
    + destruct Hin as [Heq|Hin].
      * left. apply elem_of_cons. by left.
      * destruct (IH Hin) as [Hold|(-> & [->|(hs & Hhs & ->)])].
        -- left. apply elem_of_cons. by right.
        -- right. split; [done|]. by left.
        -- right. split; [done|]. right. exists hs. split; [|done].
           apply elem_of_cons. by right.
Qed.

Lemma group_add_grows f h (g : list (Filter * list hid)) f' x :
  in_group g f' x -> in_group (group_add f h g) f' x.
Proof.
  intros (hs & Hin & Hx). induction g as [|[f0 hs0] g IH]; simpl.
  - by apply elem_of_nil in Hin.
  - apply elem_of_cons in Hin. case_decide as Hf.
    + destruct Hin as [Heq|Hin].
      * injection Heq as -> ->. exists (hs0 ++ [h]). split.
        -- apply elem_of_cons. by left.
        -- apply elem_of_app. by left.
      * exists hs. split; [|done]. apply elem_of_cons. by right.
    + destruct Hin as [Heq|Hin].
      * exists hs. split; [|done]. apply elem_of_cons. by left.
      * destruct (IH Hin) as (hs' & Hin' & Hx').
        exists hs'. split; [|done]. apply elem_of_cons. by right.
Qed.

Lemma group_add_member f h (g : list (Filter * list hid)) :
  in_group (group_add f h g) f h.
Proof.
  induction g as [|[f0 hs0] g IH]; simpl.
  - exists [h]. split; apply list_elem_of_singleton; done.
  - case_decide as Hf.
    + subst. exists (hs0 ++ [h]). split.
      * apply elem_of_cons. by left.
      * apply elem_of_app. right. by apply list_elem_of_singleton.
    + destruct IH as (hs & Hin & Hx). exists hs. split; [|done].
      apply elem_of_cons. by right.
Qed.

(** ** The invariant of the registry *)

Lemma registry_ok_init : state_ok init_core.
Proof.
  split; simpl.
  - intros f hs Hin. by apply elem_of_nil in Hin.
  - intros h f Had. unfold admitted, filter_in in Had. by destruct h.
  - intros c i h Hw. by rewrite lookup_empty in Hw.
  - intros c h Hh. by rewrite lookup_empty in Hh.
  - intros c c' h Hh. by rewrite lookup_empty in Hh.
Qed.

Lemma registry_ok_session w hm g hp c (i' : HandlerInitializer) :
  is_Some (w !! c) ->
  registry_ok w hm g hp -> registry_ok (<[c := i']> w) hm g hp.
Proof.
  intros [i Hi] [Hg Ha Hw Hh Hinj]. split; try done.
  intros c0 i0 h Hw0 Hh0. destruct (decide (c0 = c)) as [->|Hne].
  - by eapply Hw.
  - rewrite lookup_insert_ne in Hw0 by done. by eapply Hw.
Qed.

Lemma registry_ok_load w hm g hp h v :
  registry_ok w hm g hp ->
  registry_ok w hm g (alter (set_load v) h hp).
Proof.
  intros [Hg Ha Hw Hh Hinj]. split; try done.
  - intros f hs Hin. destruct (Hg f hs Hin) as [Hne Hall]. split; [done|].
    intros x Hx. unfold admitted. rewrite filter_in_set_load. by apply Hall.
  - intros x f. unfold admitted. rewrite filter_in_set_load. apply Ha.
  - intros c i x Hc Hx. rewrite filter_in_set_load. by eapply Hw.
  - intros c x Hx. rewrite filter_in_set_load. by eapply Hh.
Qed.

Lemma registry_ok_disconnect w hm g hp c :
  registry_ok w hm g hp ->
  registry_ok (delete c w) (delete c hm) g hp.
Proof.
  intros [Hg Ha Hw Hh Hinj]. split; try done.
  - intros c0 i x Hc Hx.
    apply lookup_delete_Some in Hc as [_ Hc].
    apply lookup_delete_Some in Hx as [_ Hx]. by eapply Hw.
  - intros c0 x Hx. apply lookup_delete_Some in Hx as [_ Hx]. by eapply Hh.
  - intros c1 c2 x H1 H2.
    apply lookup_delete_Some in H1 as [_ H1].
    apply lookup_delete_Some in H2 as [_ H2]. by eapply Hinj.
Qed.

Lemma registry_ok_connect w hm g hp c (i : HandlerInitializer) :
  registry_ok w hm g hp ->
  registry_ok (<[c := i]> w) (<[c := length hp]> hm) g
              (hp ++ [MkHandler c None None]).
Proof.
  intros [Hg Ha Hw Hh Hinj].
  assert (Hnew : filter_in hp (length hp) = None).
  { unfold filter_in. by rewrite lookup_ge_None_2. }
  split.
  - intros f hs Hin. destruct (Hg f hs Hin) as [Hne Hall]. split; [done|].
    intros x Hx. specialize (Hall x Hx). unfold admitted in *.
    rewrite filter_in_new_old; [done|]. by rewrite Hall.
  - intros x f Hx. unfold admitted in Hx. rewrite filter_in_new in Hx.
    case_decide; [done|]. by apply Ha.
  - intros c0 i0 x Hc Hx. rewrite filter_in_new.
    destruct (decide (c0 = c)) as [->|Hne].
    + rewrite lookup_insert_eq in Hx. injection Hx as <-.
      by rewrite decide_True.
    + rewrite lookup_insert_ne in Hc by done.
      rewrite lookup_insert_ne in Hx by done.
      case_decide; [done|]. by eapply Hw.
  - intros c0 x Hx. rewrite filter_in_new. case_decide; [done|].
    destruct (decide (c0 = c)) as [->|Hne].
    + rewrite lookup_insert_eq in Hx. by injection Hx as <-.
    + rewrite lookup_insert_ne in Hx by done. by eapply Hh.
  - intros c1 c2 x H1 H2.
    destruct (decide (c1 = c)) as [->|Hne1];
      destruct (decide (c2 = c)) as [->|Hne2]; try done.
    + rewrite lookup_insert_eq in H1. injection H1 as <-.
      rewrite lookup_insert_ne in H2 by done.
      apply Hh in H2. rewrite Hnew in H2. by destruct H2.
    + rewrite lookup_insert_eq in H2. injection H2 as <-.
      rewrite lookup_insert_ne in H1 by done.
      apply Hh in H1. rewrite Hnew in H1. by destruct H1.
    + rewrite lookup_insert_ne in H1 by done.
      rewrite lookup_insert_ne in H2 by done. by eapply Hinj.
Qed.

Lemma registry_ok_admit w hm g hp c h f :
  hm !! c = Some h ->
  is_Some (w !! c) ->
  registry_ok w hm g hp ->
  registry_ok (delete c w) hm (group_add f h g) (alter (set_filter f) h hp).
Proof.
  intros Hc [i Hi] [Hg Ha Hw Hh Hinj].
  assert (Hnone : filter_in hp h = Some None) by by eapply Hw.
  assert (Hsome : is_Some (filter_in hp h)) by by rewrite Hnone.
  assert (Hold : ∀ f' x, admitted hp x f' ->
                         admitted (alter (set_filter f) h hp) x f').
  { intros f' x Hx. unfold admitted in *.
    rewrite filter_in_set_filter_ne; [done|].
    intros ->. rewrite Hnone in Hx. done. }
  split.
  - intros f' hs' Hin.
    destruct (elem_of_group_add _ _ _ _ _ Hin)
      as [Hin'|(-> & [->|(hs & Hin' & ->)])].
    + destruct (Hg f' hs' Hin') as [Hne Hall]. split; [done|].
      intros x Hx. apply Hold. by apply Hall.
    + split; [done|]. intros x Hx. apply list_elem_of_singleton in Hx as ->.
      by apply filter_in_set_filter_eq.
    + destruct (Hg f hs Hin') as [Hne Hall]. split.
      * by destruct hs.
      * intros x Hx. apply elem_of_app in Hx as [Hx|Hx].
        -- apply Hold. by apply Hall.
        -- apply list_elem_of_singleton in Hx as ->.
           by apply filter_in_set_filter_eq.
  - intros x f' Hx. unfold admitted in Hx.
    destruct (decide (x = h)) as [->|Hne].
    + rewrite filter_in_set_filter_eq in Hx by done.
      injection Hx as <-. apply group_add_member.
    + rewrite filter_in_set_filter_ne in Hx by done.
      apply group_add_grows. by apply Ha.
  - intros c0 i0 x Hc0 Hx. apply lookup_delete_Some in Hc0 as [Hne Hc0].
    rewrite filter_in_set_filter_ne; [by eapply Hw|].
    intros ->. apply Hne. by eapply Hinj.
  - intros c0 x Hx. apply filter_in_is_Some. rewrite length_alter.
    apply filter_in_is_Some. by eapply Hh.
  - done.
Qed.

Lemma registry_step_ok w hm g hp w' hm' g' hp' :
  registry_step (w, hm, g, hp) (w', hm', g', hp') ->
  registry_ok w hm g hp -> registry_ok w' hm' g' hp'.
Proof.
  intros Hstep Hok. inversion Hstep; subst.
  - done.
  - by apply registry_ok_session.
  - by apply registry_ok_admit.
  - by apply registry_ok_load.
  - by apply registry_ok_connect.
  - by apply registry_ok_disconnect.
Qed.

Lemma registry_step_grows w hm g hp w' hm' g' hp' f h :
  registry_step (w, hm, g, hp) (w', hm', g', hp') ->
  in_group g f h -> in_group g' f h.
Proof.
  intros Hstep Hin. inversion Hstep; subst; try done.
  by apply group_add_grows.
Qed.

Lemma reachable_ok (s : CoreServer) : reachable s -> state_ok s.
Proof.
  induction 1 as [|s ev Hr IH].
  - apply registry_ok_init.
  - pose proof (step_registry s ev) as Hstep. unfold registry in Hstep.
    unfold state_ok in *. by eapply registry_step_ok.
Qed.

(** ** Dispatch *)

Lemma min_loop_member (hp : list Handler) (hs : list hid) :
  ∀ best h, min_loop hp best hs = Ok h -> h = best ∨ h ∈ hs.
Proof.
  induction hs as [|x hs IH]; intros best h; simpl.
  - intros [= ->]. by left.
  - destruct (load_lt (load_in hp x) (load_in hp best)) as [[]|e];
      [| |done]; intros Hmin; apply IH in Hmin as [->|Hin].
    + right. apply elem_of_cons. by left.
    + right. apply elem_of_cons. by right.
    + by left.
    + right. apply elem_of_cons. by right.
Qed.


Lemma min_loop_least (hp : list Handler) (hs : list hid) :
  ∀ best vb,
    load_in hp best = Some vb ->
    (∀ h, h ∈ hs -> is_Some (load_in hp h)) ->
    ∃ h v, min_loop hp best hs = Ok h ∧
           (h = best ∨ h ∈ hs) ∧
           load_in hp h = Some v ∧ v <= vb ∧
           ∀ h', h' ∈ hs -> ∃ v', load_in hp h' = Some v' ∧ v <= v'.
Proof.
  induction hs as [|x hs IH]; intros best vb Hb Hset; simpl.
  - exists best, vb. repeat split; [by left|done|lia|].
    intros h' Hin. by apply elem_of_nil in Hin.
  - destruct (Hset x) as [vx Hx]; [apply elem_of_cons; by left|].
    rewrite Hx, Hb. simpl.
    assert (Hset' : ∀ h, h ∈ hs -> is_Some (load_in hp h)).
    { intros h Hin. apply Hset. apply elem_of_cons. by right. }
    destruct (vx <? vb) eqn:Hlt.
    + apply Z.ltb_lt in Hlt.
      destruct (IH x vx Hx Hset') as (h & v & Hmin & Hmem & Hv & Hle & Hall).
      exists h, v. repeat split; [done| |done|lia|].
      * right. apply elem_of_cons. destruct Hmem; [by left|by right].
      * intros h' Hin. apply elem_of_cons in Hin as [->|Hin].
        -- exists vx. split; [done|lia].
        -- by apply Hall.
    + apply Z.ltb_ge in Hlt.
      destruct (IH best vb Hb Hset') as (h & v & Hmin & Hmem & Hv & Hle & Hall).
      exists h, v. repeat split; [done| |done|lia|].
      * destruct Hmem; [by left|]. right. apply elem_of_cons. by right.
      * intros h' Hin. apply elem_of_cons in Hin as [->|Hin].
        -- exists vx. split; [done|lia].
        -- by apply Hall.
Qed.

Lemma min_by_load_least (s : CoreServer) (hs : list hid) :
  hs ≠ [] ->
  (∀ h, h ∈ hs -> is_Some (load_of s h)) ->
  ∃ h, min_by_load (heap s) hs = Ok h ∧ least_loaded s hs h.
Proof.
  intros Hne Hset. destruct hs as [|b hs]; [done|]. simpl.
  destruct (Hset b) as [vb Hb]; [apply elem_of_cons; by left|].
  destruct (min_loop_least (heap s) hs b vb Hb)
    as (h & v & Hmin & Hmem & Hv & Hle & Hall).
  { intros h Hin. apply Hset. apply elem_of_cons. by right. }
  exists h. split; [done|]. split.
  - apply elem_of_cons. destruct Hmem; [by left|by right].
  - exists v. split; [done|]. intros h' Hin.
    apply elem_of_cons in Hin as [->|Hin].
    + exists vb. split; [done|lia].
    + by apply Hall.
Qed.



Lemma send_update_loop_least (s0 : CoreServer) request
    (items : list (Filter * list hid)) :
  serialisable request = true ->
  (∀ f hs, (f, hs) ∈ items -> filter_call f request = true ->
           hs ≠ [] ∧ ∀ h, h ∈ hs -> is_Some (load_of s0 h)) ->
  ∀ s, heap s = heap s0 ->
    ∃ targets,
      send_update_loop items request s
      = (Ok tt,
         with_trace
           (trace s ++ map (λ h, ESend h (dumps_encode request)) targets) s) ∧
      Forall2 (λ g h, least_loaded s0 g.2 h)
              (List.filter (λ g, filter_call g.1 request) items) targets.
Proof.
  intros Hser. induction items as [|[f hs] items IH]; intros Hset s Hheap.
  - simpl. exists []. simpl. rewrite app_nil_r.
    split; [by destruct s|constructor].
  - assert (IH' : ∀ s, heap s = heap s0 ->
      ∃ targets,
        send_update_loop items request s
        = (Ok tt,
           with_trace
             (trace s ++ map (λ h, ESend h (dumps_encode request)) targets) s) ∧
        Forall2 (λ g h, least_loaded s0 g.2 h)
                (List.filter (λ g, filter_call g.1 request) items) targets).
    { apply IH. intros f' hs' Hin. apply Hset. apply elem_of_cons. by right. }
    rewrite send_update_loop_cons. simpl List.filter.
    destruct (filter_call f request) eqn:Hacc; simpl.
    + destruct (Hset f hs) as [Hne Hloads]; [apply elem_of_cons; by left|done|].
      destruct (min_by_load_least s0 hs Hne Hloads) as (h & Hmin & Hleast).
      rewrite <- Hheap in Hmin. rewrite Hmin, Hser. simpl.
      match goal with
      | |- context [send_update_loop items request ?s1] =>
          destruct (IH' s1) as (targets & Hrun & Hall); [done|]
      end.
      exists (h :: targets). rewrite Hrun. simpl. split.
      * by rewrite <- app_assoc.
      * by constructor.
    + destruct (IH' s Hheap) as (targets & Hrun & Hall).
      exists targets. by split.
Qed.


(** The sends of a dispatch go to members of accepting groups. *)
Lemma send_update_loop_targets request (items : list (Filter * list hid)) :
  ∀ s : CoreServer,
    ∃ t,
      snd (send_update_loop items request s) = with_trace (trace s ++ t) s ∧
      ∀ e, e ∈ t ->
           ∃ h f, e = ESend h (dumps_encode request) ∧
                  in_group items f h ∧ filter_call f request = true.
Proof.
  induction items as [|[f hs] items IH]; intros s.
  - simpl. exists []. rewrite app_nil_r. split; [by destruct s|].
    intros e He. by apply elem_of_nil in He.
  - assert (Hweak : ∀ e, (∃ h f', e = ESend h (dumps_encode request) ∧
                                  in_group items f' h ∧
                                  filter_call f' request = true) ->
                         ∃ h f', e = ESend h (dumps_encode request) ∧
                                 in_group ((f, hs) :: items) f' h ∧
                                 filter_call f' request = true).
    { intros e (h & f' & -> & (hs' & Hin & Hh) & Hacc).
      exists h, f'. repeat split; [|done]. exists hs'. split; [|done].
      apply elem_of_cons. by right. }
    assert (Hnone : ∃ t,
      (s : CoreServer) = with_trace (trace s ++ t) s ∧
      ∀ e, e ∈ t ->
           ∃ h f', e = ESend h (dumps_encode request) ∧
                   in_group ((f, hs) :: items) f' h ∧
                   filter_call f' request = true).
    { exists []. simpl. rewrite app_nil_r. split; [by destruct s|].
      intros e' He. by apply elem_of_nil in He. }
    rewrite send_update_loop_cons.
    destruct (filter_call f request) eqn:Hacc; simpl.
    + destruct (min_by_load (heap s) hs) as [h|e] eqn:Hmin; simpl; [|done].
      destruct (serialisable request); simpl; [|done].
      match goal with
      | |- context [send_update_loop items request ?s1] =>
          destruct (IH s1) as (t & Ht & Hall)
      end.
      rewrite Ht. simpl. eexists. split; [by rewrite <- app_assoc|].
      intros e He. apply elem_of_cons in He as [->|He].
      * exists h, f. repeat split; [|done]. exists hs. split.
        -- apply elem_of_cons. by left.
        -- destruct hs as [|b hs]; [done|]. simpl in Hmin.
           apply min_loop_member in Hmin. apply elem_of_cons.
           destruct Hmin; [by left|by right].
      * apply Hweak. by apply Hall.
    + destruct (IH s) as (t & Ht & Hall). exists t. split; [done|].
      intros e He. apply Hweak. by apply Hall.
Qed.

Lemma reachable_fold (evs : list event) :
  ∀ s : CoreServer, reachable s -> reachable (fold_left step evs s).
Proof.
  induction evs as [|ev evs IH]; intros s Hs; simpl; [done|].
  apply IH. by constructor.
Qed.

(** C4: in every reachable state a handler is a member of the virtual group
    of a filter exactly when it was admitted with that filter, whether or
    not its connection has disconnected since: no event, [disconn_handler]
    included, takes a handler out of its group.  A dispatch writes to
    members of accepting groups and to nothing else, so it writes to
    admitted handlers, connected or not. *)
Theorem group_membership_is_admission (s : CoreServer) :
  reachable s ->
  (∀ h f, in_group (virtual_groups s) f h <-> admitted (heap s) h f) ∧
  (∀ ev h f, in_group (virtual_groups s) f h ->
             in_group (virtual_groups (step s ev)) f h) ∧
  (∀ request,
     ∃ t, step s (SendUpdate request) = with_trace (trace s ++ t) s ∧
          ∀ e, e ∈ t ->
               ∃ h f, e = ESend h (dumps_encode request) ∧
                      admitted (heap s) h f ∧
                      filter_call f request = true).
Proof.
  intros Hr. pose proof (reachable_ok s Hr) as [Hg Ha _ _ _].
  split; [|split].
  - intros h f. split.
    + intros (hs & Hin & Hh). destruct (Hg f hs Hin) as [_ Hall].
      by apply Hall.
    + apply Ha.
  - intros ev h f. pose proof (step_registry s ev) as Hstep.
    unfold registry in Hstep. by eapply registry_step_grows.
  - intros request. unfold step. simpl. unfold send_update. run.
    destruct (send_update_loop_targets request (virtual_groups s) s)
      as (t & Ht & Hall).
    exists t. split; [done|]. intros e He.
    destruct (Hall e He) as (h & f & -> & (hs & Hin & Hh) & Hacc).
    exists h, f. repeat split; [|done].
    destruct (Hg f hs Hin) as [_ Hadm]. by apply Hadm.
Qed.

(** C5: for a dispatched request that [dumps] can serialise, when every
    handler of every accepting group has its load set and its connection
    open, [send_update] returns and makes exactly one send per accepting
    group, in the order of the groups, each to a handler of that group whose
    load is the smallest of the group; nothing but the trace of sends
    changes.  The condition is on all accepting groups together: a group
    whose loads are set gets no send once the selection for an earlier
    accepting group has raised.  When no group accepts the request,
    [send_update] returns with the state unchanged, whatever the request. *)
Theorem send_update_least_loaded (s : CoreServer) request :
  reachable s ->
  (serialisable request = true ->
   (∀ f hs h, (f, hs) ∈ virtual_groups s -> filter_call f request = true ->
              h ∈ hs -> is_Some (load_of s h) ∧ connection_open s h) ->
   ∃ targets,
     send_update request s
     = (Ok tt,
        with_trace
          (trace s ++ map (λ h, ESend h (dumps_encode request)) targets) s) ∧
     Forall2 (λ g h, least_loaded s g.2 h)
             (List.filter (λ g, filter_call g.1 request) (virtual_groups s))
             targets) ∧
  ((∀ f hs, (f, hs) ∈ virtual_groups s -> filter_call f request = false) ->
   send_update request s = (Ok tt, s)).
Proof.
  intros Hr. pose proof (reachable_ok s Hr) as [Hg _ _ _ _]. split.
  - intros Hser Hset. unfold send_update. run.
    apply (send_update_loop_least s request (virtual_groups s)); [done| |done].
    intros f hs Hin Hacc. split.
    + by destruct (Hg f hs Hin).
    + intros h Hh. by destruct (Hset f hs h).
  - intros Hnone. unfold send_update. run.
    assert (Hloop : ∀ items : list (Filter * list hid),
              (∀ f hs, (f, hs) ∈ items -> filter_call f request = false) ->
              send_update_loop items request s = (Ok tt, s)).
    { induction items as [|[f hs] items IH]; intros Hno; [done|].
      rewrite send_update_loop_cons.
      rewrite (Hno f hs) by (apply elem_of_cons; by left).
      apply IH. intros f' hs' Hin. apply (Hno f' hs').
      apply elem_of_cons. by right. }
    by apply Hloop.
Qed.


End Facts.

(** * More of the core *)

Section Coverage.
Context {E : Externals}.

Local Ltac run := unfold bind, gets, modify, ret, raise, emit; simpl.
Local Ltac other :=
  repeat first [ rewrite lookup_insert_ne by done
               | rewrite lookup_delete_ne by done ];
  try done.

(** ** One connection at a time *)

Lemma response_other (s : CoreServer) c body :
  requests (snd (response c body s)) = requests s ∧
  rx (snd (response c body s)) = rx s ∧
  responses (snd (response c body s)) = responses s ∧
  handlers (snd (response c body s)) = handlers s ∧
  ∀ c', c ≠ c' ->
        waiting_for_init (snd (response c body s)) !! c'
        = waiting_for_init s !! c'.
Proof.
  unfold response, update_handler, conn_close. run.
  destruct (handlers s !! c) as [h|] eqn:Hh; simpl; [|done].
  destruct (waiting_for_init s !! c) as [i|] eqn:Hw; simpl.
  - destruct (next_step i body) as [i' [[]|f]]; simpl;
      repeat split; intros; other.
  - destruct body as [|tag rest]; simpl; [done|].
    destruct (byte_val tag =? HEARTBEAT); simpl.
    + by destruct rest.
    + by destruct (callback h rest).
Qed.

Lemma requests_handler_other (s : CoreServer) c c' :
  c ≠ c' ->
  let s' := snd (requests_handler c s) in
  requests s' !! c' = requests s !! c' ∧
  rx s' !! c' = rx s !! c' ∧
  waiting_for_init s' !! c' = waiting_for_init s !! c' ∧
  handlers s' !! c' = handlers s !! c' ∧
  responses s' !! c' = responses s !! c'.
Proof.
  intros Hne. unfold requests_handler, conn_recv, set_request, pop_request. run.
  destruct (requests s !! c) as [[known left acc]|] eqn:Hr; simpl.
  - destruct known; simpl.
    + case_decide; simpl; [done|].
      destruct (_ <? 0); simpl; [done|].
      match goal with |- context [if ?b then _ else _] => destruct b end;
        simpl; [|repeat split; other].
      match goal with
      | |- context [response c ?body ?s1] =>
          pose proof (response_other s1 c body) as (Hq & Hx & Hp & Hh & Hw);
          destruct (response c body s1) as [[[]|e] s2]
      end; simpl in *.
      * destruct (requests s2 !! c); simpl; rewrite ?Hq, ?Hx, ?Hp, ?Hh, ?Hw by done;
          repeat split; other.
      * rewrite ?Hq, ?Hx, ?Hp, ?Hh, ?Hw by done. repeat split; other.
    + case_decide; simpl; [done|].
      destruct (left <? 0); simpl; [done|].
      match goal with |- context [if ?b then _ else _] => destruct b end;
        simpl; repeat split; other.
  - case_decide; simpl; [done|].
    match goal with |- context [if ?b then _ else _] => destruct b end;
      simpl; repeat split; other.
Qed.

Lemma step_other (s : CoreServer) ev c' :
  event_conn ev ≠ Some c' ->
  requests (step s ev) !! c' = requests s !! c' ∧
  rx (step s ev) !! c' = rx s !! c' ∧
  waiting_for_init (step s ev) !! c' = waiting_for_init s !! c' ∧
  handlers (step s ev) !! c' = handlers s !! c' ∧
  responses (step s ev) !! c' = responses s !! c'.
Proof.
  intros Hne. unfold step.
  destruct ev as [c|c data|c|c|request]; simpl in *.
  - unfold conn_handler, conn_getpeername, new_handler. run.
    case_decide; simpl; [done|].
    repeat split; rewrite ?lookup_insert_ne by congruence; done.
  - unfold arrive. run.
    repeat split; rewrite ?lookup_insert_ne by congruence; done.
  - apply requests_handler_other. congruence.
  - unfold disconn_handler, conn_close. run.
    destruct (handlers s !! c); simpl;
      repeat split; rewrite ?lookup_delete_ne by congruence; done.
  - unfold send_update. run.
    destruct (send_update_loop_trace request (virtual_groups s) s) as [t Ht].
    by rewrite Ht.
Qed.

(** Whatever happens on other connections, in whatever order and with
    whatever errors, the entries of a connection in the five dictionaries
    and its socket buffer stay as they are: events that are not about a
    connection do not touch its pending frame, its handshake session or its
    registration. *)
Theorem connections_do_not_interfere (evs : list event) c' :
  ∀ s : CoreServer,
    Forall (λ ev, event_conn ev ≠ Some c') evs ->
    requests (fold_left step evs s) !! c' = requests s !! c' ∧
    rx (fold_left step evs s) !! c' = rx s !! c' ∧
    waiting_for_init (fold_left step evs s) !! c' = waiting_for_init s !! c' ∧
    handlers (fold_left step evs s) !! c' = handlers s !! c' ∧
    responses (fold_left step evs s) !! c' = responses s !! c'.
Proof.
  induction evs as [|ev evs IH]; intros s Hall; simpl; [done|].
  apply Forall_cons in Hall as [Hev Hall].
  destruct (IH (step s ev) Hall) as (-> & -> & -> & -> & ->).
  by apply step_other.
Qed.

(** ** Pending cells *)

Lemma int_from_bytes_little_bound (b : list byte) :
  0 <= int_from_bytes_little b < 256 ^ len b.
Proof.
  unfold len. induction b as [|x b IH]; simpl int_from_bytes_little.
  - simpl. lia.
  - pose proof (byte_val_range x) as Hx.
    replace (Z.of_nat (length (x :: b))) with (Z.succ (Z.of_nat (length b)))
      by (simpl; lia).
    rewrite Z.pow_succ_r by lia. lia.
Qed.

Lemma requests_handler_cell (s : CoreServer) c :
  (∀ x, requests s !! c = Some x -> cell_ok x) ->
  ∀ x, requests (snd (requests_handler c s)) !! c = Some x -> cell_ok x.
Proof.
  intros Hok x.
  unfold requests_handler, conn_recv, set_request, pop_request. run.
  destruct (requests s !! c) as [[known left acc]|] eqn:Hr; simpl.
  - specialize (Hok _ eq_refl). unfold cell_ok in Hok. simpl in Hok.
    assert (Hsame : requests s !! c = Some x -> cell_ok x).
    { rewrite Hr. intros [= <-]. by unfold cell_ok. }
    destruct known; simpl.
    + case_decide; simpl; [done|].
      destruct (_ <? 0) eqn:Hneg; simpl; [done|].
      apply Z.ltb_ge in Hneg.
      set (n := if left <=? receive_block_size
                then left else receive_block_size) in *.
      set (got := take (Z.to_nat n) (default [] (rx s !! c))).
      assert (Hgot : 0 <= len got <= left).
      { unfold len, got. rewrite length_take. subst n.
        destruct (left <=? receive_block_size) eqn:Hle; lia. }
      assert (Hnew : cell_ok (Cell true (left - len got) (acc ++ got))).
      { unfold cell_ok. simpl. lia. }
      destruct (left - len got <=? 0); simpl.
      * match goal with
        | |- context [response c ?body ?s1] =>
            pose proof (response_other s1 c body) as (Hq & _);
            destruct (response c body s1) as [[[]|e] s2]
        end; simpl in *.
        -- rewrite Hq, lookup_insert_eq. simpl. rewrite Hq.
           by rewrite lookup_delete_eq.
        -- rewrite Hq, lookup_insert_eq. by intros [= <-].
      * rewrite lookup_insert_eq. by intros [= <-].
    + case_decide; simpl; [done|].
      destruct (left <? 0); simpl; [done|].
      set (got := take (Z.to_nat left) (default [] (rx s !! c))).
      destruct (left - len got <=? 0) eqn:Hdone; simpl; [done|].
      apply Z.leb_gt in Hdone. pose proof (len_nonneg got).
      rewrite lookup_insert_eq. intros [= <-]. unfold cell_ok. simpl.
      rewrite len_app. lia.
  - case_decide; simpl; [by rewrite Hr|].
    change (Z.to_nat 4) with 4%nat.
    set (got := take 4 (default [] (rx s !! c))).
    assert (Hgot : 0 <= len got <= 4).
    { unfold len, got. rewrite length_take. lia. }
    destruct (len got =? 4) eqn:Hfull; simpl;
      rewrite lookup_insert_eq; intros [= <-]; unfold cell_ok; simpl.
    + apply Z.eqb_eq in Hfull.
      pose proof (int_from_bytes_little_bound got) as Hb.
      rewrite Hfull in Hb. simpl in Hb. lia.
    + apply Z.eqb_neq in Hfull. lia.
Qed.

(** In every reachable state every pending cell is well formed: before the
    prefix is complete it holds the prefix bytes read so far, fewer than 4,
    and counts the missing ones; afterwards what is left to receive is never
    negative and is below 2^32. *)
Theorem pending_cells_consistent (s : CoreServer) :
  reachable s ->
  ∀ c x, requests s !! c = Some x -> cell_ok x.
Proof.
  induction 1 as [|s ev Hr IH]; intros c x.
  - simpl. by rewrite lookup_empty.
  - destruct (decide (event_conn ev = Some c)) as [Hc|Hc].
    + unfold step. destruct ev as [c0|c0 data|c0|c0|request];
        simpl in Hc; try done; injection Hc as ->; simpl.
      * unfold conn_handler, conn_getpeername, new_handler. run.
        case_decide; simpl; apply IH.
      * apply IH.
      * apply requests_handler_cell. apply IH.
      * unfold disconn_handler, conn_close. run.
        destruct (handlers s !! c); simpl; by rewrite lookup_delete_eq.
    + destruct (step_other s ev c Hc) as [-> _]. apply IH.
Qed.

(** ** Handler objects *)

(** What an event does to the handler objects: nothing, or CONNECT makes a
    new one, or RECEIVE gives the handler of its connection a filter (while
    the connection is in handshake) or a load that is a byte (afterwards). *)
Lemma response_heap (s : CoreServer) c body :
  heap (snd (response c body s)) = heap s ∨
  ∃ h, handlers s !! c = Some h ∧
       ((∃ f, is_Some (waiting_for_init s !! c) ∧
              heap (snd (response c body s))
              = alter (set_filter f) h (heap s)) ∨
        (∃ l, waiting_for_init s !! c = None ∧
              heap (snd (response c body s))
              = alter (set_load (byte_val l)) h (heap s))).
Proof.
  unfold response, update_handler, conn_close. run.
  destruct (handlers s !! c) as [h|] eqn:Hh; simpl; [|by left].
  destruct (waiting_for_init s !! c) as [i|] eqn:Hw; simpl.
  - destruct (next_step i body) as [i' [[]|f]]; simpl; [by left|by left|].
    right. exists h. split; [done|]. left. by exists f.
  - destruct body as [|tag rest]; simpl; [by left|].
    destruct (byte_val tag =? HEARTBEAT); simpl.
    + destruct rest as [|l rest]; simpl; [by left|].
      right. exists h. split; [done|]. right. by exists l.
    + destruct (callback h rest); by left.
Qed.

Lemma requests_handler_heap (s : CoreServer) c :
  let s' := snd (requests_handler c s) in
  heap s' = heap s ∨
  ∃ h, handlers s !! c = Some h ∧
       ((∃ f, is_Some (waiting_for_init s !! c) ∧
              heap s' = alter (set_filter f) h (heap s)) ∨
        (∃ l, waiting_for_init s !! c = None ∧
              heap s' = alter (set_load (byte_val l)) h (heap s))).
Proof.
  unfold requests_handler, conn_recv, set_request, pop_request. run.
  destruct (requests s !! c) as [[known left acc]|] eqn:Hr; simpl.
  - destruct known; simpl.
    + case_decide; simpl; [by left|].
      destruct (_ <? 0); simpl; [by left|].
      match goal with |- context [if ?b then _ else _] => destruct b end;
        simpl; [|by left].
      match goal with
      | |- context [response c ?body ?s1] =>
          pose proof (response_heap s1 c body) as Hstep;
          destruct (response c body s1) as [[[]|e] s2]
      end; simpl in *.
      * by destruct (requests s2 !! c).
      * done.
    + case_decide; simpl; [by left|].
      destruct (left <? 0); simpl; [by left|].
      match goal with |- context [if ?b then _ else _] => destruct b end;
        simpl; by left.
  - case_decide; simpl; [by left|].
    match goal with |- context [if ?b then _ else _] => destruct b end;
      simpl; by left.
Qed.

Lemma step_heap (s : CoreServer) ev :
  heap (step s ev) = heap s ∨
  (∃ c, ev = Connect c ∧
        heap (step s ev) = heap s ++ [MkHandler c None None]) ∨
  (∃ c h, ev = Receive c ∧ handlers s !! c = Some h ∧
          ((∃ f, is_Some (waiting_for_init s !! c) ∧
                 heap (step s ev) = alter (set_filter f) h (heap s)) ∨
           (∃ l, waiting_for_init s !! c = None ∧
                 heap (step s ev)
                 = alter (set_load (byte_val l)) h (heap s)))).
Proof.
  unfold step. destruct ev as [c|c data|c|c|request]; simpl.
  - unfold conn_handler, conn_getpeername, new_handler. run.
    case_decide; simpl; [by left|]. right. left. by exists c.
  - by left.
  - destruct (requests_handler_heap s c) as [Hsame|(h & Hh & Hch)];
      [by left|].
    right. right. by exists c, h.
  - unfold disconn_handler, conn_close. run.
    destruct (handlers s !! c); by left.
  - unfold send_update. run.
    destruct (send_update_loop_trace request (virtual_groups s) s) as [t Ht].
    rewrite Ht. by left.
Qed.

Lemma load_in_set_filter (hp : list Handler) h f x :
  load_in (alter (set_filter f) h hp) x = load_in hp x.
Proof.
  unfold load_in. rewrite list_lookup_alter. case_decide; [|done].
  subst. by destruct (hp !! x).
Qed.

Lemma load_in_set_load (hp : list Handler) h v x w :
  load_in (alter (set_load v) h hp) x = Some w ->
  (x = h ∧ w = v) ∨ load_in hp x = Some w.
Proof.
  unfold load_in. rewrite list_lookup_alter. case_decide; [|by right].
  subst. destruct (hp !! x); simpl; [|done]. intros [= <-]. by left.
Qed.

Lemma load_in_new (hp : list Handler) c x w :
  load_in (hp ++ [MkHandler c None None]) x = Some w ->
  load_in hp x = Some w.
Proof.
  unfold load_in. destruct (decide (x < length hp)%nat).
  - by rewrite lookup_app_l.
  - rewrite lookup_app_r by lia.
    by destruct (x - length hp)%nat as [|[|k]].
Qed.

(** In every reachable state the load of a handler, when set, is a byte:
    from 0 to 255. *)
Theorem loads_are_bytes (s : CoreServer) :
  reachable s ->
  ∀ h v, load_of s h = Some v -> 0 <= v <= 255.
Proof.
  unfold load_of. induction 1 as [|s ev Hr IH]; intros h v.
  - simpl. unfold load_in. by rewrite lookup_nil.
  - destruct (step_heap s ev)
      as [->|[(c & _ & ->)|(c & h0 & _ & _ & [(f & _ & ->)|(l & _ & ->)])]].
    + apply IH.
    + intros Hv. apply load_in_new in Hv. by eapply IH.
    + rewrite load_in_set_filter. apply IH.
    + intros Hv. apply load_in_set_load in Hv as [[_ ->]|Hv].
      * apply byte_val_range.
      * by eapply IH.
Qed.

(** The filter of a handler, once set, stays: in a reachable state no event
    changes the filter a handler was admitted with. *)
Theorem filter_is_immutable (s : CoreServer) ev h f :
  reachable s ->
  admitted (heap s) h f ->
  admitted (heap (step s ev)) h f.
Proof.
  intros Hr Hadm. pose proof (reachable_ok s Hr) as [_ _ Hw _ _].
  unfold admitted in *.
  destruct (step_heap s ev)
    as [->|[(c & _ & ->)|(c & h0 & _ & Hh & [(f0 & [i Hi] & ->)|(l & _ & ->)])]].
  - done.
  - rewrite filter_in_new_old; [done|]. by rewrite Hadm.
  - rewrite filter_in_set_filter_ne; [done|].
    intros ->. rewrite (Hw c i h0 Hi Hh) in Hadm. done.
  - by rewrite filter_in_set_load.
Qed.

(** In a reachable state an event of one connection leaves the handler
    object of every other registered connection as it is: its load and its
    filter do not change. *)
Theorem other_handlers_untouched (s : CoreServer) ev c' h' :
  reachable s ->
  event_conn ev ≠ Some c' ->
  handlers s !! c' = Some h' ->
  heap (step s ev) !! h' = heap s !! h'.
Proof.
  intros Hr Hne Hh'. pose proof (reachable_ok s Hr) as [_ _ _ Hex Hinj].
  assert (Hvalid : (h' < length (heap s))%nat).
  { apply filter_in_is_Some. by eapply Hex. }
  destruct (step_heap s ev)
    as [->|[(c & _ & ->)|(c & h0 & -> & Hh & Hch)]].
  - done.
  - by rewrite lookup_app_l.
  - assert (h0 ≠ h') as Hdiff.
    { intros ->. apply Hne. simpl. f_equal. by eapply Hinj. }
    destruct Hch as [(f0 & _ & ->)|(l & _ & ->)];
      by rewrite list_lookup_alter_ne.
Qed.

(** ** The handshake through [response] *)

Lemma in_group_group_add f h (g : list (Filter * list hid)) f' x :
  in_group (group_add f h g) f' x <-> in_group g f' x ∨ (x = h ∧ f' = f).
Proof.
  split.
  - intros (hs' & Hin & Hx).
    destruct (elem_of_group_add _ _ _ _ _ Hin)
      as [Hold|(-> & [->|(hs & Hhs & ->)])].
    + left. by exists hs'.
    + right. by apply list_elem_of_singleton in Hx.
    + apply elem_of_app in Hx as [Hx|Hx].
      * left. by exists hs.
      * right. by apply list_elem_of_singleton in Hx.
  - intros [Hold|[-> ->]].
    + by apply group_add_grows.
    + apply group_add_member.
Qed.

(** When the handshake machine returns a filter for a frame of a connection
    in handshake, the connection leaves [waiting_for_init] and its handler,
    which was in no group, joins the group of that filter and no other; the
    memberships of all other handlers stay, and the load of the handler is
    not touched. *)
Theorem handshake_admits (s : CoreServer) c h i i' f body :
  reachable s ->
  handlers s !! c = Some h ->
  waiting_for_init s !! c = Some i ->
  next_step i body = (i', RFilter f) ->
  ∃ s',
    response c body s = (Ok tt, s') ∧
    waiting_for_init s' = delete c (waiting_for_init s) ∧
    handlers s' = handlers s ∧
    admitted (heap s') h f ∧
    load_of s' h = load_of s h ∧
    (∀ f', ¬ in_group (virtual_groups s) f' h) ∧
    (∀ f' x, in_group (virtual_groups s') f' x <->
             in_group (virtual_groups s) f' x ∨ (x = h ∧ f' = f)) ∧
    trace s' = trace s ++ [ENextStep c body].
Proof.
  intros Hr Hh Hw Hstep.
  pose proof (reachable_ok s Hr) as [Hg _ Hwait Hex _].
  eexists. split.
  { unfold response, update_handler. run. rewrite Hh, Hw. simpl.
    rewrite Hstep. reflexivity. }
  simpl. repeat split.
  - apply delete_insert_eq.
  - apply filter_in_set_filter_eq. by eapply Hex.
  - unfold load_of. simpl. apply load_in_set_filter.
  - intros f' (hs & Hin & Hx). destruct (Hg f' hs Hin) as [_ Hall].
    specialize (Hall h Hx). unfold admitted in Hall.
    by rewrite (Hwait c i h Hw Hh) in Hall.
  - apply in_group_group_add.
  - apply in_group_group_add.
Qed.

(** [recv] on a closed socket: the RECEIVE event raises and changes
    nothing. *)
Lemma closed_receive (s : CoreServer) c :
  c ∈ closed s -> requests_handler c s = (Raise OSError, s).
Proof.
  intros Hc. unfold requests_handler, conn_recv. run.
  destruct (requests s !! c) as [[[] left acc]|]; simpl;
    by rewrite decide_True.
Qed.

(** When the handshake machine rejects a frame, [response] closes the
    socket and nothing more: the connection stays in [handlers] and in
    [waiting_for_init], no group and no handler object changes, and every
    later RECEIVE event of the connection raises [OSError] without effect.
    The entries go only with [disconn_handler]. *)
Theorem handshake_failure_keeps_registration (s : CoreServer) c h i i' body :
  handlers s !! c = Some h ->
  waiting_for_init s !! c = Some i ->
  next_step i body = (i', RBool false) ->
  ∃ s',
    response c body s = (Ok tt, s') ∧
    c ∈ closed s' ∧
    handlers s' !! c = Some h ∧
    waiting_for_init s' !! c = Some i' ∧
    virtual_groups s' = virtual_groups s ∧
    heap s' = heap s ∧
    trace s' = trace s ++ [ENextStep c body; EClose c] ∧
    requests_handler c s' = (Raise OSError, s').
Proof.
  intros Hh Hw Hstep. eexists. split.
  { unfold response, conn_close. run. rewrite Hh, Hw. simpl.
    rewrite Hstep. reflexivity. }
  simpl. repeat split; try done.
  - set_solver.
  - by rewrite lookup_insert_eq.
  - by rewrite <- app_assoc.
  - apply closed_receive. simpl. set_solver.
Qed.

(** ** Connect, then disconnect *)


(** ** A heartbeat, from the socket to the load *)

(** A heartbeat frame that reaches an admitted connection with its prefix in
    the first read and its payload in any reads of one byte up to a block:
    the events return, the load of the handler of the connection is the
    second byte of the payload, nothing is called, and the cell of the
    connection is gone, so that the next bytes start a new frame. *)
Theorem heartbeat_frame_end_to_end
    (s : CoreServer) c h o prefix (chunks : list bytes) tag l rest :
  handlers s !! c = Some h ->
  waiting_for_init s !! c = None ->
  heap s !! h = Some o ->
  requests s !! c = None ->
  c ∉ closed s ->
  default [] (rx s !! c) = [] ->
  length prefix = 4%nat ->
  int_from_bytes_little prefix = len (concat chunks) ->
  Forall (λ ch, 0 < len ch <= receive_block_size) chunks ->
  concat chunks = tag :: l :: rest ->
  byte_val tag = HEARTBEAT ->
  ∃ s',
    deliver c (prefix :: chunks) s = (Ok tt, s') ∧
    load_of s' h = Some (byte_val l) ∧
    requests s' !! c = None ∧
    trace s' = trace s ∧
    handlers s' = handlers s ∧
    virtual_groups s' = virtual_groups s.
Proof.
  intros Hh Hw Ho Hr Hc Hrx Hlen Hval Hall Hbody Htag.
  assert (chunks ≠ []) as Hne by (intros ->; done).
  eexists. split.
  { simpl. unfold arrive. run. rewrite Hrx. simpl.
    rewrite first_read; simpl; [|done|done].
    rewrite lookup_insert_eq. simpl.
    rewrite take_ge, drop_ge by lia.
    assert ((len prefix =? 4) = true) as ->.
    { apply Z.eqb_eq. unfold len. lia. }
    rewrite (body_chunks c chunks _ (int_from_bytes_little prefix) []);
      simpl; [|by rewrite lookup_insert_eq|done|by rewrite lookup_insert_eq
              |done|done|done].
    rewrite Hbody. unfold bind.
    rewrite (response_heartbeat _ c h) by done. simpl.
    unfold pop_request. run. rewrite lookup_insert_eq. reflexivity. }
  simpl. repeat split.
  - unfold load_of, load_in. simpl.
    rewrite list_lookup_alter, decide_True by done. by rewrite Ho.
  - by rewrite lookup_delete_eq.
Qed.

(** ** More on dispatch *)

Lemma min_loop_first (hp : list Handler) (hs : list hid) :
  ∀ best h,
    min_loop hp best hs = Ok h ->
    (h = best ∧
     ∀ x, x ∈ hs -> load_at_most (load_in hp best) (load_in hp x)) ∨
    (∃ pre post,
       hs = pre ++ h :: post ∧
       load_below (load_in hp h) (load_in hp best) ∧
       (∀ x, x ∈ pre -> load_below (load_in hp h) (load_in hp x)) ∧
       (∀ x, x ∈ post -> load_at_most (load_in hp h) (load_in hp x))).
Proof.
  induction hs as [|x hs IH]; intros best h; simpl.
  - intros [= ->]. left. split; [done|].
    intros x Hx. by apply elem_of_nil in Hx.
  - destruct (load_in hp x) as [vx|] eqn:Hx; [|done].
    destruct (load_in hp best) as [vb|] eqn:Hb; [|done]. simpl.
    destruct (vx <? vb) eqn:Hlt; intros Hmin.
    + apply Z.ltb_lt in Hlt. right.
      destruct (IH x h Hmin)
        as [[-> Hall]|(pre & post & -> & Hbelow & Hpre & Hpost)].
      * exists [], hs. split; [done|]. rewrite ?Hx, ?Hb. split; [|split].
        -- by exists vx, vb.
        -- intros y Hy. by apply elem_of_nil in Hy.
        -- intros y Hy. specialize (Hall y Hy). by rewrite Hx in Hall.
      * exists (x :: pre), post. split; [done|].
        destruct Hbelow as (vh & vx' & Hh & Hx' & Hlt').
        rewrite Hx in Hx'. injection Hx' as <-.
        split; [|split].
        -- rewrite ?Hh. exists vh, vb. repeat split; try done; lia.
        -- intros y Hy. apply elem_of_cons in Hy as [->|Hy].
           ++ rewrite ?Hx, ?Hh. by exists vh, vx.
           ++ by apply Hpre.
        -- done.
    + apply Z.ltb_ge in Hlt.
      destruct (IH best h Hmin)
        as [[-> Hall]|(pre & post & -> & Hbelow & Hpre & Hpost)].
      * left. split; [done|]. intros y Hy.
        apply elem_of_cons in Hy as [->|Hy].
        -- rewrite ?Hb, ?Hx. by exists vb, vx.
        -- specialize (Hall y Hy). by rewrite Hb in Hall.
      * right. exists (x :: pre), post. split; [done|].
        destruct Hbelow as (vh & vb' & Hh & Hb' & Hlt').
        rewrite Hb in Hb'. injection Hb' as <-.
        split; [|split].
        -- rewrite ?Hh. by exists vh, vb.
        -- intros y Hy. apply elem_of_cons in Hy as [->|Hy].
           ++ rewrite ?Hx, ?Hh. exists vh, vx. repeat split; try done; lia.
           ++ by apply Hpre.
        -- done.
Qed.

(** Ties go to the handler admitted first: the handler that [min] selects
    stands in its group after handlers of strictly greater load only, and
    before handlers of greater or equal load only. *)
Theorem min_by_load_takes_first_least (hp : list Handler) (hs : list hid) h :
  min_by_load hp hs = Ok h ->
  ∃ pre post,
    hs = pre ++ h :: post ∧
    (∀ x, x ∈ pre -> load_below (load_in hp h) (load_in hp x)) ∧
    (∀ x, x ∈ post -> load_at_most (load_in hp h) (load_in hp x)).
Proof.
  destruct hs as [|b hs]; simpl; [done|]. intros Hmin.
  destruct (min_loop_first hp hs b h Hmin)
    as [[-> Hall]|(pre & post & -> & Hbelow & Hpre & Hpost)].
  - exists [], hs. split; [done|]. split; [|done].
    intros x Hx. by apply elem_of_nil in Hx.
  - exists (b :: pre), post. split; [done|]. split; [|done].
    intros x Hx. apply elem_of_cons in Hx as [->|Hx]; [done|by apply Hpre].
Qed.




(** ** No handler twice *)

Lemma members_group_add f h (g : list (Filter * list hid)) :
  members (group_add f h g) ≡ₚ members g ++ [h].
Proof.
  unfold members. induction g as [|[f' hs] g IH]; simpl; [done|].
  case_decide; simpl.
  - rewrite <- !app_assoc. apply Permutation_app_head.
    apply Permutation_app_comm.
  - rewrite IH. by rewrite app_assoc.
Qed.

Lemma members_in_group (g : list (Filter * list hid)) h :
  h ∈ members g <-> ∃ f, in_group g f h.
Proof.
  unfold members, in_group. induction g as [|[f0 hs0] g IH]; simpl.
  - split.
    + intros Hin. by apply elem_of_nil in Hin.
    + intros (f & hs & Hin & _). by apply elem_of_nil in Hin.
  - rewrite elem_of_app, IH. split.
    + intros [Hh|(f & hs & Hin & Hh)].
      * exists f0, hs0. split; [|done]. apply elem_of_cons. by left.
      * exists f, hs. split; [|done]. apply elem_of_cons. by right.
    + intros (f & hs & Hin & Hh). apply elem_of_cons in Hin as [[= -> ->]|Hin].
      * by left.
      * right. by exists f, hs.
Qed.

Lemma registry_step_members w hm g hp w' hm' g' hp' :
  registry_step (w, hm, g, hp) (w', hm', g', hp') ->
  registry_ok w hm g hp ->
  NoDup (members g) -> NoDup (members g').
Proof.
  intros Hstep [Hg _ Hw _ _] Hnd. inversion Hstep; subst; try done.
  rewrite members_group_add. apply NoDup_app. split; [done|]. split.
  - intros x Hx Hxh. apply list_elem_of_singleton in Hxh as ->.
    apply members_in_group in Hx as (f' & hs & Hin & Hh).
    destruct (Hg f' hs Hin) as [_ Hall]. specialize (Hall h Hh).
    unfold admitted in Hall.
    match goal with H : is_Some (w !! _) |- _ => destruct H as [i Hi] end.
    by erewrite Hw in Hall.
  - apply NoDup_singleton.
Qed.

Lemma reachable_members (s : CoreServer) :
  reachable s -> NoDup (members (virtual_groups s)).
Proof.
  induction 1 as [|s ev Hr IH].
  - simpl. apply NoDup_nil. done.
  - pose proof (step_registry s ev) as Hstep. unfold registry in Hstep.
    eapply registry_step_members; [exact Hstep| |done].
    by apply reachable_ok.
Qed.

Lemma send_update_loop_distinct request (items : list (Filter * list hid)) :
  ∀ s : CoreServer,
    ∃ targets,
      snd (send_update_loop items request s)
      = with_trace
          (trace s ++ map (λ h, ESend h (dumps_encode request)) targets) s ∧
      (∀ h, h ∈ targets -> h ∈ members items) ∧
      (NoDup (members items) -> NoDup targets).
Proof.
  induction items as [|[f hs] items IH]; intros s.
  - simpl. exists []. simpl. rewrite app_nil_r. split; [by destruct s|].
    split; [done|]. intros _. apply NoDup_nil. done.
  - rewrite send_update_loop_cons.
    unfold members. simpl. fold (members items).
    assert (Hnone : ∃ targets,
      (s : CoreServer)
      = with_trace
          (trace s ++ map (λ h, ESend h (dumps_encode request)) targets) s ∧
      (∀ h, h ∈ targets -> h ∈ hs ++ members items) ∧
      (NoDup (hs ++ members items) -> NoDup targets)).
    { exists []. simpl. rewrite app_nil_r. split; [by destruct s|].
      split; [intros x Hx; by apply elem_of_nil in Hx|].
      intros _. apply NoDup_nil. done. }
    destruct (filter_call f request); simpl.
    + destruct (min_by_load (heap s) hs) as [h|e] eqn:Hmin; simpl; [|done].
      destruct (serialisable request); simpl; [|done].
      * assert (Hin : h ∈ hs).
        { destruct hs as [|b hs]; [done|]. simpl in Hmin.
          apply min_loop_member in Hmin. apply elem_of_cons.
          destruct Hmin; [by left|by right]. }
        match goal with
        | |- context [send_update_loop items request ?s1] =>
            destruct (IH s1) as (targets & Hrun & Hsub & Hnd)
        end.
        exists (h :: targets). rewrite Hrun. simpl.
        split; [by rewrite <- app_assoc|]. split.
        -- intros x Hx. apply elem_of_app.
           apply elem_of_cons in Hx as [->|Hx]; [by left|].
           right. by apply Hsub.
        -- intros Hall. apply NoDup_app in Hall as (_ & Hdisj & Hrest).
           apply NoDup_cons. split; [|by apply Hnd].
           intros Hx. by apply (Hdisj h Hin), Hsub.
    + destruct (IH s) as (targets & Hrun & Hsub & Hnd).
      exists targets. split; [done|]. split.
      * intros x Hx. apply elem_of_app. right. by apply Hsub.
      * intros Hall. apply NoDup_app in Hall as (_ & _ & Hrest). by apply Hnd.
Qed.

(** In a reachable state no handler is listed twice, in one group or in two,
    and a dispatch therefore never writes the same request to a handler
    twice: its sends go to pairwise distinct handlers. *)
Theorem dispatch_targets_distinct (s : CoreServer) request :
  reachable s ->
  NoDup (members (virtual_groups s)) ∧
  ∃ targets,
    step s (SendUpdate request)
    = with_trace
        (trace s ++ map (λ h, ESend h (dumps_encode request)) targets) s ∧
    NoDup targets ∧
    ∀ h, h ∈ targets -> ∃ f, in_group (virtual_groups s) f h.
Proof.
  intros Hr. pose proof (reachable_members s Hr) as Hnd. split; [done|].
  unfold step. simpl. unfold send_update. run.
  destruct (send_update_loop_distinct request (virtual_groups s) s)
    as (targets & Hrun & Hsub & Hdist).
  exists targets. split; [done|]. split; [by apply Hdist|].
  intros h Hh. apply members_in_group. by apply Hsub.
Qed.

End Coverage.

(** * The web side *)

Section Routes.
Context {A : Rush.App}.
Import Rush.

Lemma pick_cons (handler : Handler) rest (request : Request) :
  _pick_handler (handler :: rest) request
  = if passes handler request then Some handler
    else _pick_handler rest request.
Proof.
  unfold passes. simpl.
  destruct (bool_decide (path_route handler = req_path request)),
           (bool_decide (path_route handler = "*")),
           (any_paths handler),
           (bool_decide (req_method request ∈ methods handler));
    simpl; try done;
    destruct (filter handler) as [f|]; simpl; try done;
    by destruct (f request).
Qed.

Lemma passes_takes (handler : Handler) (request : Request) :
  passes handler request = true <-> takes handler request.
Proof.
  unfold passes, takes.
  rewrite !andb_true_iff, !orb_true_iff, !bool_decide_eq_true.
  split.
  - intros [[[[Hp|Hs]|Ha] Hm] Hf]; repeat split; eauto.
    + intros f Heq. by rewrite Heq in Hf.
    + intros f Heq. by rewrite Heq in Hf.
    + intros f Heq. by rewrite Heq in Hf.
  - intros ([Hp|[Hs|Ha]] & Hm & Hf); repeat split; eauto;
      destruct (filter handler) as [f|]; eauto.
Qed.

Lemma takes_or_not (handler : Handler) (request : Request) :
  (takes handler request ∧
   ∀ rest, _pick_handler (handler :: rest) request = Some handler) ∨
  (¬ takes handler request ∧
   ∀ rest, _pick_handler (handler :: rest) request
           = _pick_handler rest request).
Proof.
  destruct (passes handler request) eqn:Hp.
  - left. split; [by apply passes_takes|].
    intros rest. by rewrite pick_cons, Hp.
  - right. split.
    + intros Ht. apply passes_takes in Ht. congruence.
    + intros rest. by rewrite pick_cons, Hp.
Qed.

Lemma pick_after_non_takers (pre post : list Handler) h (request : Request) :
  Forall (λ x, ¬ takes x request) pre ->
  takes h request ->
  _pick_handler (pre ++ h :: post) request = Some h.
Proof.
  intros Hpre Hh. induction Hpre as [|x pre Hx Hpre IH].
  - destruct (takes_or_not h request) as [[_ Hpick]|[Hn _]]; [|done].
    apply Hpick.
  - destruct (takes_or_not x request) as [[Ht _]|[_ Hpick]]; [done|].
    simpl app. by rewrite Hpick.
Qed.

(** [_pick_handler] returns a route exactly when that route takes the
    request and no route before it in the list does: the route registered
    first wins. *)
Theorem pick_handler_first_taker (hs : list Handler) (request : Request) h :
  _pick_handler hs request = Some h <->
  ∃ pre post, hs = pre ++ h :: post ∧ takes h request ∧
              Forall (λ x, ¬ takes x request) pre.
Proof.
  induction hs as [|x hs IH].
  - simpl. split; [done|]. intros (pre & post & Heq & _). by destruct pre.
  - destruct (takes_or_not x request) as [[Ht Hpick]|[Hn Hpick]];
      rewrite Hpick.
    + split.
      * intros [= <-]. exists [], hs. split; [done|]. split; [done|constructor].
      * intros (pre & post & Heq & Hh & Hpre). destruct pre as [|y pre].
        -- by injection Heq as -> _.
        -- injection Heq as <- _. apply Forall_cons in Hpre as [Hy _]. done.
    + rewrite IH. split.
      * intros (pre & post & -> & Hh & Hpre). exists (x :: pre), post.
        split; [done|]. split; [done|]. by constructor.
      * intros (pre & post & Heq & Hh & Hpre). destruct pre as [|y pre].
        -- injection Heq as -> _. done.
        -- injection Heq as <- ->. apply Forall_cons in Hpre as [_ Hpre].
           by exists pre, post.
Qed.

(** [_pick_handler] returns [None] exactly when no route takes the
    request. *)
Theorem pick_handler_none (hs : list Handler) (request : Request) :
  _pick_handler hs request = None <->
  Forall (λ x, ¬ takes x request) hs.
Proof.
  induction hs as [|x hs IH]; [by split|].
  destruct (takes_or_not x request) as [[Ht Hpick]|[Hn Hpick]]; rewrite Hpick.
  - split; [done|]. intros Hall. apply Forall_cons in Hall as [Hx _]. done.
  - rewrite IH. split.
    + intros Hall. by constructor.
    + intros Hall. by apply Forall_cons in Hall as [_ Hall].
Qed.

(** Once a route is chosen, and when the error handlers return, the [try]
    statement of [call_handler] answers a [FileNotFoundError] or a
    [NotFound] of the route function with one call of the not-found
    handler, and any other [Exception] with a log entry and one call of the
    internal-error handler, and returns.  Two things get out of it: what is
    no [Exception], and an [Exception] of a function without [__name__],
    for which the log line fails before the internal-error handler is
    called. *)
Theorem route_errors_are_answered (handler : Handler) (request : Request) :
  (∀ r, not_found_handler r = Returned) ->
  (∀ r, internal_error_handler r = Returned) ->
  (snd (call_route handler request) = Returned <->
   call_func (func handler) request = Returned ∨
   call_func (func handler) request = Raised FileNotFoundError ∨
   call_func (func handler) request = Raised NotFound ∨
   (call_func (func handler) request = Raised OtherException ∧
    named (func handler) = true)) ∧
  (∀ e, snd (call_route handler request) = Raised e ->
        call_func (func handler) request = Raised e ∧
        (e = BaseOnly ∨ (e = OtherException ∧ named (func handler) = false))) ∧
  (CNotFound ∈ fst (call_route handler request) <->
   call_func (func handler) request = Raised FileNotFoundError ∨
   call_func (func handler) request = Raised NotFound) ∧
  (CInternalError ∈ fst (call_route handler request) <->
   call_func (func handler) request = Raised OtherException ∧
   named (func handler) = true) ∧
  ∃ rest, fst (call_route handler request) = CFunc (func handler) :: rest ∧
          (length rest <= 2)%nat ∧ ∀ name, CFunc name ∉ rest.
Proof.
  intros Hnf Hie. unfold call_route.
  destruct (call_func (func handler) request) as [|[]] eqn:Hcall;
    try destruct (named (func handler)) eqn:Hname;
    rewrite ?Hnf, ?Hie; simpl.
  all: split; [split; [intros; try done; eauto 6|intros H; try done;
                     repeat destruct H as [H|H]; try done; by destruct H]|].
  all: split; [intros e He; try done; injection He as <-; (split; [done|]); eauto|].
  all: split; [split; [intros Hin|intros [Hc|Hc]; try done];
               repeat (apply elem_of_cons in Hin as [Hin|Hin]; try done);
               try (by apply elem_of_nil in Hin); eauto;
               rewrite !elem_of_cons; eauto|].
  all: split; [split; [intros Hin|intros [Hc Hn]; try done];
               repeat (apply elem_of_cons in Hin as [Hin|Hin]; try done);
               try (by apply elem_of_nil in Hin); eauto;
               rewrite !elem_of_cons; eauto|].
  all: eexists; (split; [reflexivity|]); (split; [simpl; lia|]).
  all: intros name Hin;
       repeat (apply elem_of_cons in Hin as [Hin|Hin]; try done);
       by apply elem_of_nil in Hin.
Qed.

(** A redirect shadows every route: once [add_redirect] or [add_redirects]
    has registered a target for a path, [call_handler] answers a request
    for that path with [raw_response] of the target and calls no route and
    no error handler, whatever routes there are; the redirect registered
    last for a path is the one served. *)
Theorem redirect_shadows_routes
    (self : HandlersManager) args to (new : gmap string Target) :
  call_handler (add_redirect (req_path (build args)) to self) args
  = ([CRawResponse to], raw_response (build args) to) ∧
  (new !! req_path (build args) = Some to ->
   call_handler (add_redirects new self) args
   = ([CRawResponse to], raw_response (build args) to)) ∧
  (∀ from, from ≠ req_path (build args) ->
           call_handler (add_redirect from to self) args
           = call_handler self args).
Proof.
  unfold call_handler, add_redirect, add_redirects. simpl. repeat split.
  - by rewrite lookup_insert_eq.
  - intros Hnew. by rewrite (lookup_union_Some_l _ _ _ _ Hnew).
  - intros from Hne. by rewrite lookup_insert_ne.
Qed.

(** The path that [route] registers starts with a slash or a star, is the
    given path or the given path after a slash, and is left as it is when
    given to [route] again; the empty path raises [IndexError]. *)
Theorem route_path_normal (path p : string) :
  route_path "" = Raise IndexError ∧
  (route_path path = Ok p ->
   route_path p = Ok p ∧
   (∃ rest, p = String "/" rest ∨ p = String "*" rest) ∧
   (p = path ∨ p = "/" +:+ path)).
Proof.
  split; [done|]. destruct path as [|c rest]; simpl; [done|].
  destruct (bool_decide (c = "/"%char)) eqn:Hs;
    [apply bool_decide_eq_true in Hs|];
  [|destruct (bool_decide (c = "*"%char)) eqn:Hx;
    [apply bool_decide_eq_true in Hx|]]; simpl; intros [= <-].
  - subst. simpl. split; [done|]. split; [|by left]. exists rest. by left.
  - subst. simpl. split; [done|]. split; [|by left]. exists rest. by right.
  - simpl. split; [done|]. split; [|by right]. eexists. by left.
Qed.

(** A route that was registered is served: when the entity keeps what
    [route] gives it, a request whose path is the registered path, whose
    method is among the methods of the route and that passes its filter
    makes [call_handler] call the function of the route first, provided no
    redirect has that path and no route registered earlier takes the
    request. *)
Theorem routed_request_is_served
    (entity : string -> option (Request -> bool) -> string -> list string ->
              Handler)
    (self self' : HandlersManager) path m flt fn args :
  (∀ f fl p ms, func (entity f fl p ms) = f ∧
                path_route (entity f fl p ms) = p ∧
                methods (entity f fl p ms) = ms ∧
                filter (entity f fl p ms) = fl) ->
  route entity path m flt fn self = Ok self' ->
  route_path path = Ok (req_path (build args)) ->
  req_method (build args) ∈ m ->
  (∀ f, flt = Some f -> f (build args) = true) ->
  redirects self !! req_path (build args) = None ->
  Forall (λ h, ¬ takes h (build args)) (handlers self) ->
  ∃ rest, fst (call_handler self' args) = CFunc fn :: rest.
Proof.
  intros Hkeep Hroute Hpath Hmeth Hflt Hred Hnone.
  unfold route in Hroute. rewrite Hpath in Hroute. injection Hroute as <-.
  destruct (Hkeep fn flt (req_path (build args)) m) as (Hf & Hp & Hm & Hfl).
  assert (Hpick : _pick_handler
                    (handlers self
                     ++ [entity fn flt (req_path (build args)) m])
                    (build args)
                  = Some (entity fn flt (req_path (build args)) m)).
  { apply pick_after_non_takers; [done|].
    unfold takes. rewrite Hp, Hm, Hfl. repeat split; [by left|done|done]. }
  unfold call_handler. simpl. rewrite Hred, Hpick.
  unfold call_route. rewrite Hf.
  destruct (call_func fn (build args)) as [|[]]; try destruct (named fn);
    simpl; eauto.
Qed.

End Routes.

(** * The properties on concrete runs *)

Section Runs.
Import Demo.

Local Ltac compute_eq := vm_compute; reflexivity.
Local Ltac not_closed :=
  match goal with
  | |- ?c ∉ ?X => apply (bool_decide_eq_false_1 (c ∈ X)); compute_eq
  end.

Lemma one_worker_reachable : reachable one_worker.
Proof. apply reachable_fold. constructor. Qed.

Lemma one_worker_gone_reachable : reachable one_worker_gone.
Proof. constructor. apply one_worker_reachable. Qed.

Lemma three_workers_reachable : reachable three_workers.
Proof. apply reachable_fold. constructor. Qed.

Lemma cold_and_warm_reachable : reachable cold_and_warm.
Proof. apply reachable_fold. constructor. Qed.

(** The message of payload [A] read as 1 byte, then the other 4. *)
Lemma split_prefix_raises_witness :
  ∃ s', deliver 0%nat [[x01]; [x00; x00; x00; x41]] one_worker
        = (Raise TypeError, s') ∧
        trace s' = trace one_worker ∧ heap s' = heap one_worker.
Proof.
  apply (split_prefix_raises one_worker 0%nat [x01] [[x00; x00; x00; x41]]).
  - compute_eq.
  - not_closed.
  - compute_eq.
  - simpl. lia.
  - simpl. lia.
Defined.

(** The same message read one byte at a time. *)
Example one_byte_reads_raise :
  fst (deliver 0%nat [[x01]; [x00]; [x00]; [x00]; [x41]] one_worker)
  = Raise TypeError.
Proof. compute_eq. Qed.

(** When the first read brings the whole prefix, the payload is put together
    from one-byte reads and handed on once. *)
Example whole_prefix_reassembles :
  let s' := snd (deliver 0%nat
                   [[x06; x00; x00; x00]; [x09]; [x68]; [x65]; [x6c]; [x6c];
                    [x6f]] one_worker) in
  trace s' = trace one_worker ++ [ECallback 0%nat hello] ∧
  requests s' !! 0%nat = None.
Proof. split; compute_eq. Qed.

(** The magic bytes are read as the length 132201. *)
Lemma handshake_bytes_read_as_length_witness :
  ∃ s', requests_handler 0%nat magic_sent = (Ok tt, s') ∧
        requests s' !! 0%nat = Some (Cell true 132201 []) ∧
        waiting_for_init s' !! 0%nat = Some Start ∧
        trace s' = trace magic_sent.
Proof.
  apply (handshake_bytes_read_as_length
           magic_sent 0%nat Start INITIAL_BYTES_SEQUENCE []).
  - compute_eq.
  - compute_eq.
  - not_closed.
  - compute_eq.
  - reflexivity.
Defined.

(** The admitted connection disconnects: its handler stays in the group of
    its filter, and a second run of the disconnect handler raises. *)
Lemma disconnect_keeps_group_and_raises_twice :
  handlers one_worker !! 0%nat = Some 0%nat ∧
  in_group (virtual_groups one_worker) [47] 0%nat ∧
  disconn_handler 0%nat one_worker = (Ok tt, one_worker_gone) ∧
  in_group (virtual_groups one_worker_gone) [47] 0%nat ∧
  fst (disconn_handler 0%nat one_worker_gone) = Raise KeyError.
Proof.
  repeat split; try compute_eq;
    (exists [0%nat]; split; vm_compute; constructor).
Qed.

Lemma disconnect_clears_maps_witness :
  ∃ s',
    disconn_handler 0%nat one_worker = (Ok tt, s') ∧
    waiting_for_init s' = delete 0%nat (waiting_for_init one_worker) ∧
    requests s' = delete 0%nat (requests one_worker) ∧
    responses s' = delete 0%nat (responses one_worker) ∧
    handlers s' = delete 0%nat (handlers one_worker) ∧
    0%nat ∈ closed s' ∧
    trace s' = trace one_worker ++ [EClose 0%nat] ∧
    virtual_groups s' = virtual_groups one_worker ∧
    heap s' = heap one_worker ∧
    let s'' := snd (disconn_handler 0%nat s') in
    waiting_for_init s'' = waiting_for_init s' ∧
    requests s'' = requests s' ∧
    responses s'' = responses s' ∧
    handlers s'' = handlers s' ∧
    virtual_groups s'' = virtual_groups s' ∧
    heap s'' = heap s' ∧
    closed s'' = closed s'.
Proof.
  apply (disconnect_clears_maps one_worker 0%nat 0%nat). compute_eq.
Defined.

(** A dispatch after the disconnect writes to the handler of the closed
    connection. *)
Lemma dispatch_reaches_disconnected_worker :
  reachable one_worker_gone ∧
  handlers one_worker_gone !! 0%nat = None ∧
  0%nat ∈ closed one_worker_gone ∧
  h_conn <$> heap one_worker_gone !! 0%nat = Some 0%nat ∧
  in_group (virtual_groups one_worker_gone) [47] 0%nat ∧
  handle (dispatch slash_a) one_worker_gone
  = (Ok tt,
     with_trace (trace one_worker_gone ++ [ESend 0%nat slash_a])
                one_worker_gone).
Proof.
  split; [apply one_worker_gone_reachable|].
  split; [compute_eq|].
  split; [apply (bool_decide_unpack _); compute_eq|].
  split; [compute_eq|].
  split; [|compute_eq].
  exists [0%nat]. split; vm_compute; constructor.
Qed.

Lemma group_membership_is_admission_witness :
  (∀ h f, in_group (virtual_groups one_worker_gone) f h <->
          admitted (heap one_worker_gone) h f) ∧
  (∀ ev h f, in_group (virtual_groups one_worker_gone) f h ->
             in_group (virtual_groups (step one_worker_gone ev)) f h) ∧
  (∀ request,
     ∃ t, step one_worker_gone (SendUpdate request)
          = with_trace (trace one_worker_gone ++ t) one_worker_gone ∧
          ∀ e, e ∈ t ->
               ∃ h f, e = ESend h (dumps_encode request) ∧
                      admitted (heap one_worker_gone) h f ∧
                      filter_call f request = true).
Proof.
  apply (group_membership_is_admission one_worker_gone).
  constructor. apply reachable_fold. constructor.
Defined.

(** Loads 80, 12 and 200: the request goes to the handler of load 12. *)
Example dispatch_picks_load_12 :
  map (load_of three_workers) [0; 1; 2]%nat = [Some 80; Some 12; Some 200] ∧
  handle (dispatch slash_a) three_workers
  = (Ok tt,
     with_trace (trace three_workers ++ [ESend 1%nat slash_a]) three_workers).
Proof. split; compute_eq. Qed.

(** A request that no filter accepts. *)
Example dispatch_unmatched_is_dropped :
  handle (dispatch [x61]) three_workers = (Ok tt, three_workers).
Proof. compute_eq. Qed.

Lemma send_update_least_loaded_witness :
  (∃ targets,
     send_update slash_a three_workers
     = (Ok tt,
        with_trace
          (trace three_workers ++ map (λ h, ESend h slash_a) targets)
          three_workers) ∧
     Forall2 (λ g h, least_loaded three_workers g.2 h)
             (List.filter (λ g, filter_call g.1 slash_a)
                          (virtual_groups three_workers))
             targets) ∧
  send_update [x61] three_workers = (Ok tt, three_workers).
Proof.
  assert (virtual_groups three_workers = [([47], [0; 1; 2]%nat)]) as Hg
    by compute_eq.
  split.
  - apply (send_update_least_loaded three_workers slash_a).
    + apply reachable_fold. constructor.
    + reflexivity.
    + intros f hs h Hin _ Hh.
      rewrite Hg in Hin. apply list_elem_of_singleton in Hin.
      injection Hin as -> ->.
      repeat (apply elem_of_cons in Hh as [->|Hh]);
        [split;
         [eexists; compute_eq
         |intros o Ho; vm_compute in Ho; injection Ho as <-; not_closed] ..|].
      apply elem_of_nil in Hh. destruct Hh.
  - apply (send_update_least_loaded three_workers [x61]).
    + apply reachable_fold. constructor.
    + intros f hs Hin.
      rewrite Hg in Hin. apply list_elem_of_singleton in Hin.
      by injection Hin as -> ->.
Defined.

(** The precondition of one group is not enough: the group of [/a] has its
    only load set, and gets no send, because the selection for the group of
    [/], which comes first, raises.  Nor is a request sent that [dumps]
    cannot serialise, whatever the loads. *)
Lemma dispatch_stops_at_first_error :
  reachable mixed_groups ∧
  virtual_groups mixed_groups = [([47], [0; 1]%nat); ([47; 97], [2%nat])] ∧
  filter_call (Externals := demo) [47; 97] slash_a = true ∧
  load_of mixed_groups 2%nat = Some 5 ∧
  handle (dispatch slash_a) mixed_groups = (Raise TypeError, mixed_groups) ∧
  map (load_of three_workers) [0; 1; 2]%nat = [Some 80; Some 12; Some 200] ∧
  handle (dispatch slash_binary) three_workers
  = (Raise TypeError, three_workers).
Proof.
  split; [apply reachable_fold; constructor|].
  repeat split; compute_eq.
Qed.

(** A heartbeat [1, 57]. *)
Lemma heartbeat_overwrites_load_witness :
  ∃ s',
    response 0%nat [x01; x39] one_worker = (Ok tt, s') ∧
    heap s' !! 0%nat = Some (@MkHandler demo 0%nat (Some 57) (Some [47])) ∧
    0 <= 57 <= 255 ∧
    (∀ h', h' ≠ 0%nat -> heap s' !! h' = heap one_worker !! h') ∧
    trace s' = trace one_worker ∧
    handlers s' = handlers one_worker ∧
    virtual_groups s' = virtual_groups one_worker.
Proof.
  apply (heartbeat_overwrites_load
           one_worker 0%nat 0%nat (@MkHandler demo 0%nat None (Some [47]))
           x01 x39 []).
  - compute_eq.
  - compute_eq.
  - compute_eq.
  - reflexivity.
Defined.


(** The callback of the instance raises on the frame that is the tag 9
    alone: the exception leaves the handler of the RECEIVE event. *)
Lemma callback_failure_escapes :
  handlers frame_pending !! 0%nat = Some 0%nat ∧
  waiting_for_init frame_pending !! 0%nat = None ∧
  requests frame_pending !! 0%nat = Some (Cell true 1 []) ∧
  fst (handle (Receive 0%nat) frame_pending) = Raise CallbackError ∧
  requests (step frame_pending (Receive 0%nat)) !! 0%nat
  = Some (Cell true 0 [x09]).
Proof. repeat split; compute_eq. Qed.

Lemma callback_failure_propagates_witness :
  fst (response 0%nat [x09] frame_pending) = Raise CallbackError ∧
  ∃ s',
    requests_handler 0%nat frame_pending = (Raise CallbackError, s') ∧
    requests s' !! 0%nat = Some (Cell true 0 [x09]) ∧
    trace s' = trace frame_pending ++ [ECallback 0%nat []].
Proof.
  apply (callback_failure_propagates
           frame_pending 0%nat 0%nat 1 [] [x09] [] x09 []).
  - compute_eq.
  - compute_eq.
  - not_closed.
  - compute_eq.
  - compute_eq.
  - reflexivity.
  - simpl. lia.
  - reflexivity.
  - discriminate.
  - reflexivity.
Defined.



Lemma classification_needs_bytes_witness :
  response 0%nat [] empty_pending = (Raise IndexError, empty_pending) ∧
  response 0%nat [x01] empty_pending = (Raise IndexError, empty_pending) ∧
  fst (requests_handler 0%nat empty_pending) = Raise IndexError.
Proof.
  destruct (classification_needs_bytes empty_pending 0%nat 0%nat)
    as (Hempty & Hlone & _ & Hzero).
  - compute_eq.
  - compute_eq.
  - split; [exact Hempty|]. split; [by apply Hlone|].
    apply Hzero.
    + compute_eq.
    + not_closed.
    + simpl. lia.
Defined.

(** A frame that declares the length 0: the event after its prefix raises. *)
Example empty_frame_raises :
  fst (deliver 0%nat [[x00; x00; x00; x00]; [x02]] one_worker)
  = Raise IndexError.
Proof. compute_eq. Qed.

(** ** More of the core, on runs *)

Lemma connections_do_not_interfere_witness :
  requests (fold_left step elsewhere frame_pending) !! 0%nat
  = requests frame_pending !! 0%nat ∧
  rx (fold_left step elsewhere frame_pending) !! 0%nat
  = rx frame_pending !! 0%nat ∧
  waiting_for_init (fold_left step elsewhere frame_pending) !! 0%nat
  = waiting_for_init frame_pending !! 0%nat ∧
  handlers (fold_left step elsewhere frame_pending) !! 0%nat
  = handlers frame_pending !! 0%nat ∧
  responses (fold_left step elsewhere frame_pending) !! 0%nat
  = responses frame_pending !! 0%nat.
Proof.
  apply (connections_do_not_interfere elsewhere 0%nat frame_pending).
  unfold elsewhere, admit_worker, heartbeat, sends. simpl.
  repeat (constructor; [simpl; discriminate|]). constructor.
Defined.

Lemma frame_pending_reachable : reachable frame_pending.
Proof. apply reachable_fold. apply one_worker_reachable. Qed.

Lemma pending_cells_consistent_witness :
  requests frame_pending !! 0%nat = Some (Cell true 1 []) ∧
  cell_ok (Cell true 1 []).
Proof.
  split; [compute_eq|].
  apply (pending_cells_consistent frame_pending) with (c := 0%nat).
  - apply reachable_fold. apply reachable_fold. constructor.
  - compute_eq.
Defined.

Lemma loads_are_bytes_witness :
  load_of three_workers 2%nat = Some 200 ∧ 0 <= 200 <= 255.
Proof.
  split; [compute_eq|].
  apply (loads_are_bytes three_workers) with (h := 2%nat).
  - apply reachable_fold. constructor.
  - compute_eq.
Defined.

Lemma filter_is_immutable_witness :
  admitted (heap (step one_worker (Disconnect 0%nat))) 0%nat [47].
Proof.
  apply (filter_is_immutable one_worker (Disconnect 0%nat) 0%nat [47]).
  - apply reachable_fold. constructor.
  - compute_eq.
Defined.

Lemma other_handlers_untouched_witness :
  heap (step three_workers (Disconnect 1%nat)) !! 0%nat
  = heap three_workers !! 0%nat.
Proof.
  apply (other_handlers_untouched three_workers (Disconnect 1%nat)
           0%nat 0%nat).
  - apply reachable_fold. constructor.
  - simpl. discriminate.
  - compute_eq.
Defined.

Lemma handshake_admits_witness :
  ∃ s',
    response 0%nat [x2f] in_handshake = (Ok tt, s') ∧
    waiting_for_init s' = delete 0%nat (waiting_for_init in_handshake) ∧
    handlers s' = handlers in_handshake ∧
    admitted (heap s') 0%nat [47] ∧
    load_of s' 0%nat = load_of in_handshake 0%nat ∧
    (∀ f', ¬ in_group (virtual_groups in_handshake) f' 0%nat) ∧
    (∀ f' x, in_group (virtual_groups s') f' x <->
             in_group (virtual_groups in_handshake) f' x ∨
             (x = 0%nat ∧ f' = [47])) ∧
    trace s' = trace in_handshake ++ [ENextStep 0%nat [x2f]].
Proof.
  apply (handshake_admits in_handshake 0%nat 0%nat NameSent NameSent
           [47] [x2f]).
  - apply reachable_fold. constructor.
  - compute_eq.
  - compute_eq.
  - reflexivity.
Defined.

Lemma handshake_failure_keeps_registration_witness :
  ∃ s',
    response 0%nat [x00] just_connected = (Ok tt, s') ∧
    0%nat ∈ closed s' ∧
    handlers s' !! 0%nat = Some 0%nat ∧
    waiting_for_init s' !! 0%nat = Some Start ∧
    virtual_groups s' = virtual_groups just_connected ∧
    heap s' = heap just_connected ∧
    trace s' = trace just_connected ++ [ENextStep 0%nat [x00]; EClose 0%nat] ∧
    requests_handler 0%nat s' = (Raise OSError, s').
Proof.
  apply (handshake_failure_keeps_registration
           just_connected 0%nat 0%nat Start Start [x00]).
  - compute_eq.
  - compute_eq.
  - reflexivity.
Defined.


(** The heartbeat [1, 57] in a frame, read as prefix, one byte, one byte. *)
Lemma heartbeat_frame_end_to_end_witness :
  ∃ s',
    deliver 0%nat [[x02; x00; x00; x00]; [x01]; [x39]] one_worker
    = (Ok tt, s') ∧
    load_of s' 0%nat = Some 57 ∧
    requests s' !! 0%nat = None ∧
    trace s' = trace one_worker ∧
    handlers s' = handlers one_worker ∧
    virtual_groups s' = virtual_groups one_worker.
Proof.
  apply (heartbeat_frame_end_to_end
           one_worker 0%nat 0%nat (@MkHandler demo 0%nat None (Some [47]))
           [x02; x00; x00; x00] [[x01]; [x39]] x01 x39 []).
  - compute_eq.
  - compute_eq.
  - compute_eq.
  - compute_eq.
  - not_closed.
  - compute_eq.
  - reflexivity.
  - reflexivity.
  - repeat (apply Forall_cons; split; [unfold len; simpl; lia|]).
    constructor.
  - reflexivity.
  - reflexivity.
Defined.

(** The message [9, hello] read as prefix, then [9 h e], then [l l o]. *)
Lemma whole_prefix_reassembly_witness :
  deliver 0%nat [[x06; x00; x00; x00]; [x09; x68; x65]; [x6c; x6c; x6f]]
          one_worker
  = (response 0%nat (x09 :: hello) ;;; pop_request 0%nat)
      (with_requests
         (<[0%nat := Cell true 0 (x09 :: hello)]> (requests one_worker))
         (with_rx (<[0%nat := []]> (rx one_worker)) one_worker)).
Proof.
  apply (whole_prefix_reassembly one_worker 0%nat [x06; x00; x00; x00]
           [[x09; x68; x65]; [x6c; x6c; x6f]]).
  - compute_eq.
  - not_closed.
  - compute_eq.
  - reflexivity.
  - reflexivity.
  - discriminate.
  - repeat (apply Forall_cons; split; [unfold len; simpl; lia|]).
    constructor.
Defined.

(** Loads 12, 12 and 200: the first of the two handlers of load 12. *)
Lemma min_by_load_takes_first_least_witness :
  ∃ pre post,
    [0; 1; 2]%nat = pre ++ 0%nat :: post ∧
    (∀ x, x ∈ pre ->
          load_below (load_in (heap tied_workers) 0%nat)
                     (load_in (heap tied_workers) x)) ∧
    (∀ x, x ∈ post ->
          load_at_most (load_in (heap tied_workers) 0%nat)
                       (load_in (heap tied_workers) x)).
Proof.
  apply (min_by_load_takes_first_least (heap tied_workers) [0; 1; 2]%nat
           0%nat).
  compute_eq.
Defined.


Lemma dispatch_targets_distinct_witness :
  NoDup (members (virtual_groups three_workers)) ∧
  ∃ targets,
    step three_workers (SendUpdate slash_a)
    = with_trace
        (trace three_workers ++ map (λ h, ESend h slash_a) targets)
        three_workers ∧
    NoDup targets ∧
    ∀ h, h ∈ targets -> ∃ f, in_group (virtual_groups three_workers) f h.
Proof.
  apply (dispatch_targets_distinct three_workers slash_a).
  apply reachable_fold. constructor.
Defined.

End Runs.

(** ** The web side, on a site *)

Section SiteRuns.
Import Rush Site.

(** Routes in the order of their registration: the star comes last. *)
Example site_requests :
  call_handler manager ("GET", "/") = ([CFunc "index"], Returned) ∧
  call_handler manager ("GET", "/nowhere") = ([CFunc "fallback"], Returned) ∧
  call_handler manager ("POST", "/nowhere") = ([CNotFound], Returned) ∧
  call_handler manager ("GET", "/old") = ([CRawResponse "/"], Returned) ∧
  call_handler manager ("POST", "/boom")
  = ([CFunc "boom"; CLog; CInternalError], Returned) ∧
  call_handler manager ("GET", "/stop") = ([CFunc "stop"], Raised BaseOnly).
Proof. repeat split; vm_compute; reflexivity. Qed.

(** A failing route function with a name is answered; one without a name
    fails again in the log line. *)
Example unnamed_function_escapes :
  call_route (entity "boom" None "/boom" ["POST"]) ("POST", "/boom")
  = ([CFunc "boom"; CLog; CInternalError], Returned) ∧
  call_route (entity "partial" None "/partial" ["GET"]) ("GET", "/partial")
  = ([CFunc "partial"], Raised OtherException) ∧
  call_handler (MkManager [entity "partial" None "/partial" ["GET"]] ∅)
               ("GET", "/partial")
  = ([CFunc "partial"], Raised OtherException).
Proof. repeat split; vm_compute; reflexivity. Qed.

Lemma route_errors_are_answered_witness :
  (snd (call_route (entity "boom" None "/boom" ["POST"]) ("POST", "/boom")) = Returned <->
   call_func "boom" ("POST", "/boom") = Returned ∨
   call_func "boom" ("POST", "/boom") = Raised FileNotFoundError ∨
   call_func "boom" ("POST", "/boom") = Raised NotFound ∨
   (call_func "boom" ("POST", "/boom") = Raised OtherException ∧
    named "boom" = true)) ∧
  (∀ e, snd (call_route (entity "boom" None "/boom" ["POST"]) ("POST", "/boom")) = Raised e ->
        call_func "boom" ("POST", "/boom") = Raised e ∧
        (e = BaseOnly ∨ (e = OtherException ∧ named "boom" = false))) ∧
  (CNotFound ∈ fst (call_route (entity "boom" None "/boom" ["POST"]) ("POST", "/boom")) <->
   call_func "boom" ("POST", "/boom") = Raised FileNotFoundError ∨
   call_func "boom" ("POST", "/boom") = Raised NotFound) ∧
  (CInternalError ∈ fst (call_route (entity "boom" None "/boom" ["POST"]) ("POST", "/boom")) <->
   call_func "boom" ("POST", "/boom") = Raised OtherException ∧
   named "boom" = true) ∧
  ∃ rest, fst (call_route (entity "boom" None "/boom" ["POST"]) ("POST", "/boom")) = CFunc "boom" :: rest ∧
          (length rest <= 2)%nat ∧ ∀ name, CFunc name ∉ rest.
Proof.
  apply (route_errors_are_answered (A := site)
           (entity "boom" None "/boom" ["POST"]) ("POST", "/boom")); done.
Defined.

(** The route [about], registered without a slash, serves [/about]. *)
Lemma routed_request_is_served_witness :
  ∃ rest,
    fst (call_handler
           (MkManager [entity "index" None "/" ["GET"];
                       entity "about" None "/about" ["GET"]] ∅)
           ("GET", "/about"))
    = CFunc "about" :: rest.
Proof.
  apply (routed_request_is_served (A := site) entity
           (MkManager [entity "index" None "/" ["GET"]] ∅)
           (MkManager [entity "index" None "/" ["GET"];
                       entity "about" None "/about" ["GET"]] ∅)
           "about" ["GET"] None "about" ("GET", "/about")).
  - done.
  - reflexivity.
  - reflexivity.
  - simpl. constructor.
  - intros f. discriminate.
  - reflexivity.
  - repeat constructor. intros [[Hp|[Hs|Ha]] _]; simpl in *; discriminate.
Defined.

End SiteRuns.
